(** * Cloud-storage ledger backend: object keys, latest-ledger lookup,
      batch indexing and range probing.

    Shallow embedding of [ledgerbackend] (CloudStorageBackend) from
    src/protocols/stellarcore/getledgerentries_response.go.

    Conventions.
    - A Go [uint32] is a [Z] in [0, 2^32); every arithmetic operation of the
      source is written with its wrap-around ([wrap32]).  A Go [int] is taken
      to be 64 bits wide.
    - A Go [string] is a [string] (a list of bytes).
    - A call returns an [outcome]: a value, an [error] value (Go's second
      result), or a run-time panic (index out of range, integer division by
      zero), which the source never recovers from.
    - The object store and the codecs (gzip, XDR) are collaborators: they are
      fields of [DataStore] and section variables. *)

From Stdlib Require Import ZArith String Ascii List Bool Lia.
From Stdlib Require Import DecimalString DecimalN DecimalPos Permutation.
Import ListNotations.

Local Open Scope string_scope.
Local Open Scope Z_scope.

(** ** Results of a call *)

Inductive num_err_kind := ErrSyntax | ErrRange.

(** Go error values: [errors.Errorf], [errors.Wrapf], [*strconv.NumError] and
    the errors of the collaborators. *)
Inductive error :=
| Errorf (msg : string)
| Wrapf (cause : error) (msg : string)
| NumError (func num : string) (kind : num_err_kind)
| External (msg : string).

Inductive panic :=
| IndexOutOfRange (index len : Z)
| DivideByZero.

Inductive outcome (A : Type) :=
| Ok (a : A)
| Err (e : error)
| Panic (p : panic).

Arguments Ok {A} a.
Arguments Err {A} e.
Arguments Panic {A} p.

Definition bind {A B} (m : outcome A) (k : A -> outcome B) : outcome B :=
  match m with
  | Ok a => k a
  | Err e => Err e
  | Panic p => Panic p
  end.

Notation "x <- m ;; k" := (bind m (fun x => k))
  (at level 61, m at next level, right associativity).

(** [v, err := m; if err != nil { return zero, errors.Wrapf(err, msg) }] *)
Definition wrapErr {A} (m : outcome A) (msg : string) : outcome A :=
  match m with
  | Ok a => Ok a
  | Err e => Err (Wrapf e msg)
  | Panic p => Panic p
  end.

Definition is_ok {A} (m : outcome A) : bool :=
  match m with Ok _ => true | _ => false end.

Definition is_err {A} (m : outcome A) : bool :=
  match m with Err _ => true | _ => false end.

(** ** uint32 arithmetic *)

Definition wrap32 (z : Z) : Z := z mod 2 ^ 32.
Definition wrap64 (z : Z) : Z := z mod 2 ^ 64.

Definition is_u32 (z : Z) : Prop := 0 <= z < 2 ^ 32.

Definition add32 (a b : Z) : Z := wrap32 (a + b).
Definition sub32 (a b : Z) : Z := wrap32 (a - b).
Definition mul32 (a b : Z) : Z := wrap32 (a * b).

(** Integer division panics on a zero divisor. *)
Definition div32 (a b : Z) : outcome Z :=
  if b =? 0 then Panic DivideByZero else Ok (a / b).

(** [s[i]] on a slice: a run-time panic outside [0, len(s)). *)
Definition index {A} (s : list A) (i : Z) : outcome A :=
  if (0 <=? i) && (i <? Z.of_nat (List.length s)) then
    match nth_error s (Z.to_nat i) with
    | Some a => Ok a
    | None => Panic (IndexOutOfRange i (Z.of_nat (List.length s)))
    end
  else Panic (IndexOutOfRange i (Z.of_nat (List.length s))).

(** ** The parts of Go's standard library the backend calls *)

(** [fmt.Sprintf("%d", n)] for an unsigned [n]. *)
Definition Sprintf_d (n : Z) : string :=
  NilEmpty.string_of_uint (N.to_uint (Z.to_N n)).

Module strings.

(** [strings.Split(s, sep)] for a one-byte separator, the only kind the
    backend passes ("/" and "-").  The result is never empty. *)
Fixpoint Split (s : string) (sep : ascii) : list string :=
  match s with
  | EmptyString => [EmptyString]
  | String c s' =>
      if Ascii.eqb c sep then EmptyString :: Split s' sep
      else match Split s' sep with
           | [] => [String c EmptyString]
           | p :: ps => String c p :: ps
           end
  end.

Definition HasPrefix (s prefix : string) : bool := String.prefix prefix s.

Definition HasSuffix (s suffix : string) : bool :=
  (String.length suffix <=? String.length s)%nat
  && String.eqb (substring (String.length s - String.length suffix) (String.length suffix) s) suffix.

Definition TrimPrefix (s prefix : string) : string :=
  if HasPrefix s prefix
  then substring (String.length prefix) (String.length s - String.length prefix) s
  else s.

Definition TrimSuffix (s suffix : string) : string :=
  if HasSuffix s suffix
  then substring 0 (String.length s - String.length suffix) s
  else s.

End strings.

Module strconv.

Definition digit (c : ascii) : option Z :=
  let n := Z.of_N (N_of_ascii c) in
  if (48 <=? n) && (n <=? 57) then Some (n - 48) else None.

(** The digit loop of [ParseUint] in base 10: [n] is the uint64
    accumulator, [cutoff = maxUint64/10 + 1]. *)
Fixpoint ParseUint_loop (s : string) (n maxVal : Z) : num_err_kind + Z :=
  match s with
  | EmptyString => inr n
  | String c s' =>
      match digit c with
      | None => inl ErrSyntax
      | Some d =>
          if (2 ^ 64 - 1) / 10 + 1 <=? n then inl ErrRange
          else
            let n := wrap64 (n * 10) in
            let n1 := wrap64 (n + d) in
            if (n1 <? n) || (maxVal <? n1) then inl ErrRange
            else ParseUint_loop s' n1 maxVal
      end
  end.

Definition ParseUint_kind (s : string) (bitSize : Z) : num_err_kind + Z :=
  match s with
  | EmptyString => inl ErrSyntax
  | _ => ParseUint_loop s 0 (2 ^ bitSize - 1)
  end.

(** [strconv.ParseUint(s, 10, bitSize)] for [0 < bitSize <= 64]. *)
Definition ParseUint (s : string) (bitSize : Z) : outcome Z :=
  match ParseUint_kind s bitSize with
  | inr n => Ok n
  | inl k => Err (NumError "ParseUint" s k)
  end.

Definition strip_sign (s : string) : bool * string :=
  match s with
  | String "+" s' => (false, s')
  | String "-" s' => (true, s')
  | _ => (false, s)
  end.

(** [strconv.ParseInt(s, 10, 0)] with a 64-bit [int]; the error kind only. *)
Definition ParseInt_kind (s : string) : num_err_kind + Z :=
  match s with
  | EmptyString => inl ErrSyntax
  | _ =>
      let '(neg, s') := strip_sign s in
      let cutoff := 2 ^ 63 in
      match ParseUint_kind s' 64 with
      | inl ErrSyntax => inl ErrSyntax
      | inl ErrRange => inl ErrRange
      | inr un =>
          if negb neg && (cutoff <=? un) then inl ErrRange
          else if neg && (cutoff <? un) then inl ErrRange
          else inr (if neg then - un else un)
      end
  end.

(** The fast path of [Atoi], taken when [0 < len(s) < 19]. *)
Fixpoint Atoi_fast_loop (s : string) (n : Z) : option Z :=
  match s with
  | EmptyString => Some n
  | String c s' =>
      match digit c with
      | None => None
      | Some d => Atoi_fast_loop s' (n * 10 + d)
      end
  end.

(** [strconv.Atoi(s)]. *)
Definition Atoi (s : string) : outcome Z :=
  let sLen := Z.of_nat (String.length s) in
  if (0 <? sLen) && (sLen <? 19) then
    let '(neg, s') := strip_sign s in
    match s' with
    | EmptyString => Err (NumError "Atoi" s ErrSyntax)
    | _ =>
        match Atoi_fast_loop s' 0 with
        | None => Err (NumError "Atoi" s ErrSyntax)
        | Some n => Ok (if neg then - n else n)
        end
    end
  else
    match ParseInt_kind s with
    | inr n => Ok n
    | inl k => Err (NumError "Atoi" s k)
    end.

End strconv.

(** ** The backend *)

Definition fileSuffix : string := ".xdr.gz".
Definition ledgersPerFile : Z := 1.
Definition filesPerPartition : Z := 64000.

(** The file range of a sequence: [fileStart] and [fileEnd] of the source. *)
Definition fileStartOf (ledgerSeq ledgersPerFile : Z) : Z :=
  mul32 (ledgerSeq / ledgersPerFile) ledgersPerFile.

Definition fileEndOf (ledgerSeq ledgersPerFile : Z) : Z :=
  sub32 (add32 (fileStartOf ledgerSeq ledgersPerFile) ledgersPerFile) 1.

(** The text after the partition prefix: ["{fileStart}"], extended by
    ["-{fileEnd}"] when the two differ, then the suffix. *)
Definition fileName (fileStart fileEnd : Z) : string :=
  Sprintf_d fileStart
  ++ (if negb (fileStart =? fileEnd) then "-" ++ Sprintf_d fileEnd else "")
  ++ fileSuffix.

Definition partitionPrefix (partitionStart partitionEnd : Z) : string :=
  Sprintf_d partitionStart ++ "-" ++ Sprintf_d partitionEnd ++ "/".

(** The partition prefix of a key: empty unless [filesPerPartition > 1]. *)
Definition keyPrefix (ledgerSeq ledgersPerFile filesPerPartition : Z) : string :=
  if 1 <? filesPerPartition then
    let partitionSize := mul32 ledgersPerFile filesPerPartition in
    let partitionStart := mul32 (ledgerSeq / partitionSize) partitionSize in
    partitionPrefix partitionStart (sub32 (add32 partitionStart partitionSize) 1)
  else "".

Definition GetObjectKeyFromSequenceNumber
    (ledgerSeq ledgersPerFile filesPerPartition : Z) : outcome string :=
  if ledgersPerFile <? 1 then
    Err (Errorf ("Invalid ledgers per file (" ++ Sprintf_d ledgersPerFile
                 ++ "): must be at least 1"))
  else
    objectKey <-
      (if 1 <? filesPerPartition then
         let partitionSize := mul32 ledgersPerFile filesPerPartition in
         q <- div32 ledgerSeq partitionSize ;;
         let partitionStart := mul32 q partitionSize in
         let partitionEnd := sub32 (add32 partitionStart partitionSize) 1 in
         Ok (partitionPrefix partitionStart partitionEnd)
       else Ok "") ;;
    q <- div32 ledgerSeq ledgersPerFile ;;
    let fileStart := mul32 q ledgersPerFile in
    let fileEnd := sub32 (add32 fileStart ledgersPerFile) 1 in
    Ok (objectKey ++ fileName fileStart fileEnd).

(** [sep] does not occur in [s]. *)
Fixpoint free_of (sep : ascii) (s : string) : Prop :=
  match s with
  | EmptyString => True
  | String c s' => c <> sep /\ free_of sep s'
  end.

(** Reading a key back: the file range written in its last path segment.
    The backend has no such function; it states what a key encodes. *)
Definition parseDecimal (s : string) : option Z :=
  match s with
  | EmptyString => None
  | _ => option_map (fun d => Z.of_N (N.of_uint d)) (NilEmpty.uint_of_string s)
  end.

Definition decodeFileRange (key : string) : option (Z * Z) :=
  let name := last (strings.Split key "/") "" in
  match strings.Split (strings.TrimSuffix name fileSuffix) "-" with
  | [a] =>
      match parseDecimal a with
      | Some fileStart => Some (fileStart, fileStart)
      | None => None
      end
  | [a; b] =>
      match parseDecimal a, parseDecimal b with
      | Some fileStart, Some fileEnd => Some (fileStart, fileEnd)
      | _, _ => None
      end
  | _ => None
  end.

(** One iteration of the loop of [getLatestDirectory]; the state is
    [(latestDirectory, largestDirectoryLedger)]. *)
Definition getLatestDirectory_step (st : string * Z) (dir : string)
  : outcome (string * Z) :=
  let dirParts := strings.Split dir "/" in
  lastDirPart <- index dirParts (Z.of_nat (List.length dirParts) - 1) ;;
  let parts := strings.Split lastDirPart "-" in
  if Z.of_nat (List.length parts) =? 2 then
    part1 <- index parts 1 ;;
    upper <- wrapErr (strconv.Atoi part1)
                     ("failed getting latest directory " ++ dir) ;;
    if snd st <? upper then Ok (dir, upper) else Ok st
  else Ok st.

Fixpoint getLatestDirectory_loop (directories : list string) (st : string * Z)
  : outcome (string * Z) :=
  match directories with
  | [] => Ok st
  | dir :: rest =>
      st' <- getLatestDirectory_step st dir ;;
      getLatestDirectory_loop rest st'
  end.

Definition getLatestDirectory (directories : list string) : outcome string :=
  st <- getLatestDirectory_loop directories ("", 0) ;;
  Ok (fst st).

(** How [getLatestDirectory] reads one name: the parts of its trailing path
    segment, and the [<end>] value when there are exactly two parts ([None]
    when the name is passed over, an error when [Atoi] rejects the second
    part). *)
Definition trailingParts (dir : string) : list string :=
  strings.Split (last (strings.Split dir "/") "") "-".

Definition dirUpper (dir : string) : outcome (option Z) :=
  match trailingParts dir with
  | [_; part1] =>
      upper <- wrapErr (strconv.Atoi part1)
                       ("failed getting latest directory " ++ dir) ;;
      Ok (Some upper)
  | _ => Ok None
  end.

(** The text [getLatestFileNameLedgerSequence] hands to [ParseUint]. *)
Definition trimFileName (fileName directory : string) : string :=
  let fileNameTrimExt := strings.TrimSuffix fileName fileSuffix in
  strings.TrimPrefix fileNameTrimExt (directory ++ "/").

Definition getLatestFileName_step (latestLedgerSequence : Z)
    (fileName directory : string) : outcome Z :=
  ledgerSequence <-
    wrapErr (strconv.ParseUint (trimFileName fileName directory) 32)
            ("failed converting filename to uint32 " ++ fileName) ;;
  if latestLedgerSequence <? wrap32 ledgerSequence
  then Ok (wrap32 ledgerSequence)
  else Ok latestLedgerSequence.

Fixpoint getLatestFileName_loop (fileNames : list string) (directory : string)
    (latestLedgerSequence : Z) : outcome Z :=
  match fileNames with
  | [] => Ok latestLedgerSequence
  | fileName :: rest =>
      latest' <- getLatestFileName_step latestLedgerSequence fileName directory ;;
      getLatestFileName_loop rest directory latest'
  end.

Definition getLatestFileNameLedgerSequence (fileNames : list string)
    (directory : string) : outcome Z :=
  getLatestFileName_loop fileNames directory 0.

Record Range := { from : Z; to : Z; bounded : bool }.

(** A computation that records, in order, the sequences [GetLedger] is called
    on. *)
Definition Probe (A : Type) : Type := list Z -> outcome A * list Z.

Definition retP {A} (a : A) : Probe A := fun log => (Ok a, log).

Definition bindP {A B} (m : Probe A) (k : A -> Probe B) : Probe B :=
  fun log =>
    match m log with
    | (Ok a, log') => k a log'
    | (Err e, log') => (Err e, log')
    | (Panic p, log') => (Panic p, log')
    end.

Definition wrapErrP {A} (m : Probe A) (msg : string) : Probe A :=
  fun log => let '(r, log') := m log in (wrapErr r msg, log').

Notation "x <~ m ;; k" := (bindP m (fun x => k))
  (at level 61, m at next level, right associativity).

Section Backend.

(** The payload of one ledger and the two stream types are opaque. *)
Variables LedgerCloseMeta Reader GzipReader : Type.

Record LedgerCloseMetaBatch := {
  StartSequence : Z;
  LedgerCloseMetas : list LedgerCloseMeta
}.

(** [datastore.DataStore], as far as the backend uses it. *)
Record DataStore := {
  ListDirectoryNames : outcome (list string);
  ListFileNames : string -> outcome (list string);
  GetFile : string -> outcome Reader
}.

Record CloudStorageBackend := {
  lcmDataStore : DataStore;
  storageURL : string
}.

(** [gzip.NewReader], [io.ReadAll] and
    [LedgerCloseMetaBatch.UnmarshalBinary]. *)
Variable gzip_NewReader : Reader -> outcome GzipReader.
Variable io_ReadAll : GzipReader -> outcome (list Byte.byte).
Variable UnmarshalBinary : list Byte.byte -> outcome LedgerCloseMetaBatch.

Definition GetLatestLedgerSequence (csb : CloudStorageBackend) : outcome Z :=
  directories <- wrapErr (ListDirectoryNames (lcmDataStore csb))
                         "failed getting list of directory names" ;;
  latestDirectory <- wrapErr (getLatestDirectory directories)
                             "failed getting latest directory" ;;
  fileNames <- wrapErr (ListFileNames (lcmDataStore csb) latestDirectory)
                       ("failed getting filenames in dir " ++ latestDirectory) ;;
  wrapErr (getLatestFileNameLedgerSequence fileNames latestDirectory)
          "failed converting filename to ledger sequence".

(** The first part of [GetLedger]: derive the key, fetch, decompress and
    decode the batch. *)
Definition fetchBatch (csb : CloudStorageBackend) (sequence : Z)
  : outcome LedgerCloseMetaBatch :=
  objectKey <-
    wrapErr (GetObjectKeyFromSequenceNumber sequence ledgersPerFile
                                            filesPerPartition)
            ("failed to get object key for ledger " ++ Sprintf_d sequence) ;;
  reader <- wrapErr (GetFile (lcmDataStore csb) objectKey)
                    ("failed getting file: " ++ objectKey) ;;
  gzipReader <- wrapErr (gzip_NewReader reader)
                        ("failed getting file: " ++ objectKey) ;;
  objectBytes <- wrapErr (io_ReadAll gzipReader)
                         ("failed reading file: " ++ objectKey) ;;
  wrapErr (UnmarshalBinary objectBytes)
          ("failed unmarshalling file: " ++ objectKey).

Definition GetLedger (csb : CloudStorageBackend) (sequence : Z)
  : outcome LedgerCloseMeta :=
  ledgerCloseMetaBatch <- fetchBatch csb sequence ;;
  let ledgerCloseMetasIndex :=
    sub32 sequence (StartSequence ledgerCloseMetaBatch) in
  index (LedgerCloseMetas ledgerCloseMetaBatch) ledgerCloseMetasIndex.

(** A call of [csb.GetLedger] from [PrepareRange], recorded. *)
Definition call_GetLedger (csb : CloudStorageBackend) (sequence : Z)
  : Probe LedgerCloseMeta :=
  fun log => (GetLedger csb sequence, (log ++ [sequence])%list).

Definition PrepareRange (csb : CloudStorageBackend) (ledgerRange : Range)
  : Probe unit :=
  _ <~ wrapErrP (call_GetLedger csb (from ledgerRange))
                ("error getting ledger " ++ Sprintf_d (from ledgerRange)) ;;
  if bounded ledgerRange then
    _ <~ wrapErrP (call_GetLedger csb (to ledgerRange))
                  ("error getting ending ledger "
                   ++ Sprintf_d (to ledgerRange)) ;;
    retP tt
  else retP tt.

Definition IsPrepared (csb : CloudStorageBackend) (ledgerRange : Range)
  : outcome bool := Ok true.

End Backend.

Arguments StartSequence {LedgerCloseMeta}.
Arguments LedgerCloseMetas {LedgerCloseMeta}.
Arguments ListDirectoryNames {Reader}.
Arguments ListFileNames {Reader}.
Arguments GetFile {Reader}.
Arguments lcmDataStore {Reader}.
Arguments GetLatestLedgerSequence {Reader}.
Arguments fetchBatch {LedgerCloseMeta Reader GzipReader}.
Arguments GetLedger {LedgerCloseMeta Reader GzipReader}.
Arguments PrepareRange {LedgerCloseMeta Reader GzipReader}.

(** ** In-memory stores *)

Module Fixture.

Definition Reader : Type := list Byte.byte.
Definition GzipReader : Type := list Byte.byte.
Definition LedgerCloseMeta : Type := string.

Definition gzip_NewReader (r : Reader) : outcome GzipReader := Ok r.
Definition io_ReadAll (r : GzipReader) : outcome (list Byte.byte) := Ok r.

(** Every object decodes to the one-record batch that starts at 5. *)
Definition UnmarshalBinary (b : list Byte.byte)
  : outcome (LedgerCloseMetaBatch LedgerCloseMeta) :=
  Ok {| StartSequence := 5; LedgerCloseMetas := ["lcm-5"] |}.

(** A bucket with nothing in it. *)
Definition emptyStore : DataStore Reader := {|
  ListDirectoryNames := Ok [];
  ListFileNames := fun _ => Ok [];
  GetFile := fun _ => Err (External "object not found")
|}.

Definition emptyBackend : CloudStorageBackend Reader :=
  {| lcmDataStore := emptyStore; storageURL := "mem://empty" |}.

(** A bucket whose listing has no partition directory, only stray names. *)
Definition strayStore : DataStore Reader := {|
  ListDirectoryNames := Ok ["ledgers"; "tmp/a-b-c"];
  ListFileNames := fun _ => Ok ["7.xdr.gz"];
  GetFile := fun _ => Err (External "object not found")
|}.

Definition strayBackend : CloudStorageBackend Reader :=
  {| lcmDataStore := strayStore; storageURL := "mem://stray" |}.

(** A bucket whose listing has two partitions and the name ["bad-dir"]. *)
Definition mixedStore : DataStore Reader := {|
  ListDirectoryNames :=
    Ok ["ledgers/net/0-63999"; "ledgers/net/64000-127999"; "bad-dir"];
  ListFileNames := fun _ => Ok [];
  GetFile := fun _ => Err (External "object not found")
|}.

Definition mixedBackend : CloudStorageBackend Reader :=
  {| lcmDataStore := mixedStore; storageURL := "mem://mixed" |}.

(** A bucket whose partition 0-63999 holds the objects of ledgers 5 and 6. *)
Definition smallStore : DataStore Reader := {|
  ListDirectoryNames := Ok ["ledgers/net/0-63999"];
  ListFileNames := fun _ =>
    Ok ["ledgers/net/0-63999/5.xdr.gz"; "ledgers/net/0-63999/6.xdr.gz"];
  GetFile := fun key =>
    if String.eqb key "0-63999/5.xdr.gz" || String.eqb key "0-63999/6.xdr.gz"
    then Ok [] else Err (External "object not found")
|}.

Definition smallBackend : CloudStorageBackend Reader :=
  {| lcmDataStore := smallStore; storageURL := "mem://small" |}.

(** A bucket laid out by the key scheme: two partitions, three ledgers in
    the later one. *)
Definition layoutStore : DataStore Reader := {|
  ListDirectoryNames := Ok ["ledgers/net/0-63999"; "ledgers/net/64000-127999"];
  ListFileNames := fun dir =>
    if String.eqb dir "ledgers/net/64000-127999"
    then Ok ["ledgers/net/64000-127999/64000.xdr.gz";
             "ledgers/net/64000-127999/64002.xdr.gz";
             "ledgers/net/64000-127999/64001.xdr.gz"]
    else Ok [];
  GetFile := fun _ => Err (External "object not found")
|}.

Definition layoutBackend : CloudStorageBackend Reader :=
  {| lcmDataStore := layoutStore; storageURL := "mem://layout" |}.

Definition getLedger : CloudStorageBackend Reader -> Z -> outcome LedgerCloseMeta :=
  GetLedger gzip_NewReader io_ReadAll UnmarshalBinary.

Definition prepareRange : CloudStorageBackend Reader -> Range -> Probe unit :=
  PrepareRange gzip_NewReader io_ReadAll UnmarshalBinary.

End Fixture.

(** * Properties *)

(** ** Object keys *)

Lemma div32_nonzero (a b : Z) : b <> 0 -> div32 a b = Ok (a / b).
Proof.
  intros Hb. unfold div32.
  destruct (Z.eqb_spec b 0) as [E|E]; [contradiction|reflexivity].
Qed.

Lemma div32_zero (a : Z) : div32 a 0 = Panic DivideByZero.
Proof. reflexivity. Qed.

(** The three ways a call ends. *)
Lemma GetObjectKey_cases (ledgerSeq lpf fpp : Z) :
  GetObjectKeyFromSequenceNumber ledgerSeq lpf fpp =
  if lpf <? 1 then
    Err (Errorf ("Invalid ledgers per file (" ++ Sprintf_d lpf
                 ++ "): must be at least 1"))
  else if (1 <? fpp) && (mul32 lpf fpp =? 0) then Panic DivideByZero
  else Ok (keyPrefix ledgerSeq lpf fpp
           ++ fileName (fileStartOf ledgerSeq lpf) (fileEndOf ledgerSeq lpf)).
Proof.
  unfold GetObjectKeyFromSequenceNumber, keyPrefix, fileStartOf, fileEndOf.
  destruct (Z.ltb_spec lpf 1) as [Hl|Hl]; [reflexivity|].
  assert (Hd : div32 ledgerSeq lpf = Ok (ledgerSeq / lpf))
    by (apply div32_nonzero; lia).
  destruct (1 <? fpp); cbn [andb].
  - destruct (Z.eqb_spec (mul32 lpf fpp) 0) as [E|E].
    + rewrite E. reflexivity.
    + rewrite (div32_nonzero _ _ E). cbn [bind]. rewrite Hd. reflexivity.
  - cbn [bind]. rewrite Hd. reflexivity.
Qed.

(** C5: the two keys of the deployment's configuration, and the shape of
    every key: the partition prefix is there exactly when
    [filesPerPartition > 1], the ["-{fileEnd}"] extension exactly when
    [fileStart <> fileEnd]. *)
Theorem GetObjectKey_examples_and_shape :
  GetObjectKeyFromSequenceNumber 5 1 64000 = Ok "0-63999/5.xdr.gz"
  /\ GetObjectKeyFromSequenceNumber 64005 1 64000
     = Ok "64000-127999/64005.xdr.gz"
  /\ forall ledgerSeq lpf fpp key,
       GetObjectKeyFromSequenceNumber ledgerSeq lpf fpp = Ok key ->
       let partitionSize := mul32 lpf fpp in
       let partitionStart := mul32 (ledgerSeq / partitionSize) partitionSize in
       let partitionEnd := sub32 (add32 partitionStart partitionSize) 1 in
       let fileStart := mul32 (ledgerSeq / lpf) lpf in
       let fileEnd := sub32 (add32 fileStart lpf) 1 in
       key =
         (if 1 <? fpp
          then Sprintf_d partitionStart ++ "-" ++ Sprintf_d partitionEnd ++ "/"
          else "")
         ++ Sprintf_d fileStart
         ++ (if fileStart =? fileEnd then "" else "-" ++ Sprintf_d fileEnd)
         ++ ".xdr.gz".
Proof.
  split; [reflexivity|]. split; [reflexivity|].
  intros ledgerSeq lpf fpp key H. cbv zeta.
  rewrite GetObjectKey_cases in H.
  destruct (lpf <? 1); [discriminate|].
  destruct ((1 <? fpp) && (mul32 lpf fpp =? 0)); [discriminate|].
  injection H as <-.
  unfold keyPrefix, partitionPrefix, fileName, fileStartOf, fileEndOf, fileSuffix.
  destruct (_ =? _); reflexivity.
Qed.

Lemma GetObjectKey_examples_and_shape_witness :
  "0-127/8-11.xdr.gz" =
    (if 1 <? 32
     then Sprintf_d (mul32 (9 / mul32 4 32) (mul32 4 32)) ++ "-"
          ++ Sprintf_d (sub32 (add32 (mul32 (9 / mul32 4 32) (mul32 4 32))
                                     (mul32 4 32)) 1) ++ "/"
     else "")
    ++ Sprintf_d (mul32 (9 / 4) 4)
    ++ (if mul32 (9 / 4) 4 =? sub32 (add32 (mul32 (9 / 4) 4) 4) 1 then ""
        else "-" ++ Sprintf_d (sub32 (add32 (mul32 (9 / 4) 4) 4) 1))
    ++ ".xdr.gz".
Proof.
  apply (proj2 (proj2 GetObjectKey_examples_and_shape) 9 4 32).
  reflexivity.
Defined.

(** C6: the call returns an error exactly when [ledgersPerFile < 1], and the
    error is the invalid-configuration one; with [ledgersPerFile >= 1] the
    only other way not to return a key is the division by a partition size
    that wrapped to zero. *)
Theorem GetObjectKey_error_iff (x lpf y : Z) :
  ((exists e, GetObjectKeyFromSequenceNumber x lpf y = Err e) <-> lpf < 1)
  /\ (lpf < 1 ->
      GetObjectKeyFromSequenceNumber x lpf y =
      Err (Errorf ("Invalid ledgers per file (" ++ Sprintf_d lpf
                   ++ "): must be at least 1")))
  /\ GetObjectKeyFromSequenceNumber x 0 y =
     Err (Errorf "Invalid ledgers per file (0): must be at least 1")
  /\ (1 <= lpf -> y <= 1 \/ mul32 lpf y <> 0 ->
      exists key, GetObjectKeyFromSequenceNumber x lpf y = Ok key)
  /\ (1 <= lpf -> 1 < y -> mul32 lpf y = 0 ->
      GetObjectKeyFromSequenceNumber x lpf y = Panic DivideByZero).
Proof.
  rewrite GetObjectKey_cases.
  destruct (Z.ltb_spec lpf 1) as [Hl|Hl].
  - repeat split; try lia; try reflexivity. eauto.
  - split; [|split; [lia|split; [reflexivity|split]]].
    + split; [|lia]. intros [e He].
      destruct (_ && _); discriminate.
    + intros _ Hy.
      destruct (Z.ltb_spec 1 y) as [H1|H1]; cbn [andb]; [|eauto].
      destruct (Z.eqb_spec (mul32 lpf y) 0) as [E|E]; [lia|eauto].
    + intros _ Hy E. rewrite E.
      destruct (Z.ltb_spec 1 y) as [H1|H1]; [reflexivity|lia].
Qed.

Lemma GetObjectKey_error_iff_witness :
  exists key, GetObjectKeyFromSequenceNumber 64005 1 64000 = Ok key.
Proof.
  apply (proj1 (proj2 (proj2 (proj2 (GetObjectKey_error_iff 64005 1 64000))))).
  - lia.
  - right. vm_compute. discriminate.
Defined.

(** C10: with [ledgersPerFile >= 1], [filesPerPartition = 0] is accepted: the
    call returns the key of [filesPerPartition = 1], which has no partition
    prefix. *)
Theorem GetObjectKey_zero_filesPerPartition (ledgerSeq lpf : Z) :
  1 <= lpf ->
  GetObjectKeyFromSequenceNumber ledgerSeq lpf 0
  = GetObjectKeyFromSequenceNumber ledgerSeq lpf 1
  /\ GetObjectKeyFromSequenceNumber ledgerSeq lpf 0
     = Ok (let fileStart := mul32 (ledgerSeq / lpf) lpf in
           let fileEnd := sub32 (add32 fileStart lpf) 1 in
           Sprintf_d fileStart
           ++ (if fileStart =? fileEnd then "" else "-" ++ Sprintf_d fileEnd)
           ++ ".xdr.gz").
Proof.
  intros Hl. rewrite !GetObjectKey_cases.
  destruct (Z.ltb_spec lpf 1) as [H|H]; [lia|].
  cbn. split; [reflexivity|].
  unfold fileName, fileStartOf, fileEndOf, fileSuffix.
  destruct (_ =? _); reflexivity.
Qed.

Lemma GetObjectKey_zero_filesPerPartition_witness :
  GetObjectKeyFromSequenceNumber 9 4 0 = GetObjectKeyFromSequenceNumber 9 4 1
  /\ GetObjectKeyFromSequenceNumber 9 4 0 = Ok "8-11.xdr.gz".
Proof.
  apply (GetObjectKey_zero_filesPerPartition 9 4). lia.
Defined.

(** ** Strings *)

Lemma length_append (a b : string) :
  String.length (a ++ b) = (String.length a + String.length b)%nat.
Proof. induction a as [|c a IH]; cbn; [reflexivity|now rewrite IH]. Qed.

Lemma append_assoc (a b c : string) : (a ++ b) ++ c = a ++ (b ++ c).
Proof. induction a as [|x a IH]; cbn; [reflexivity|now rewrite IH]. Qed.

Lemma substring_0_append (a b : string) :
  substring 0 (String.length a) (a ++ b) = a.
Proof. induction a as [|c a IH]; cbn; [now destruct b|now rewrite IH]. Qed.

Lemma substring_skip_append (a b : string) :
  substring (String.length a) (String.length b) (a ++ b) = b.
Proof.
  induction a as [|c a IH]; cbn; [|exact IH].
  induction b as [|c b IH]; cbn; [reflexivity|now rewrite IH].
Qed.

Lemma TrimSuffix_append (a suffix : string) :
  strings.TrimSuffix (a ++ suffix) suffix = a.
Proof.
  unfold strings.TrimSuffix, strings.HasSuffix.
  rewrite length_append.
  replace (String.length a + String.length suffix - String.length suffix)%nat
    with (String.length a) by lia.
  rewrite substring_skip_append, String.eqb_refl, substring_0_append.
  replace (_ <=? _)%nat with true; [reflexivity|].
  symmetry. apply Nat.leb_le. lia.
Qed.

Lemma Split_nonempty (s : string) (sep : ascii) : strings.Split s sep <> [].
Proof.
  destruct s as [|c s]; cbn; [discriminate|].
  destruct (Ascii.eqb c sep); [discriminate|].
  destruct (strings.Split s sep); discriminate.
Qed.

Lemma Split_free (sep : ascii) (s : string) :
  free_of sep s -> strings.Split s sep = [s].
Proof.
  induction s as [|c s IH]; cbn; [reflexivity|].
  intros [Hc Hs]. rewrite (IH Hs).
  destruct (Ascii.eqb_spec c sep); [contradiction|reflexivity].
Qed.

Lemma Split_append (sep : ascii) (a b : string) :
  strings.Split (a ++ String sep b) sep
  = (strings.Split a sep ++ strings.Split b sep)%list.
Proof.
  induction a as [|c a IH]; cbn.
  - now rewrite Ascii.eqb_refl.
  - rewrite IH. destruct (Ascii.eqb c sep); [reflexivity|].
    pose proof (Split_nonempty a sep) as Hne.
    destruct (strings.Split a sep); [contradiction|reflexivity].
Qed.

Lemma last_app_nonempty {A} (l l' : list A) (d : A) :
  l' <> [] -> last (l ++ l') d = last l' d.
Proof.
  intros Hne. induction l as [|x l IH]; [reflexivity|].
  cbn [app]. rewrite <- IH. cbn.
  destruct (l ++ l')%list eqn:E; [|reflexivity].
  apply app_eq_nil in E. destruct E; contradiction.
Qed.

(** ** Decimal text *)

Lemma string_of_uint_free (sep : ascii) (d : Decimal.uint) :
  strconv.digit sep = None -> free_of sep (NilEmpty.string_of_uint d).
Proof.
  intros Hsep.
  induction d; cbn; try exact I;
    (split; [intros <-; vm_compute in Hsep; discriminate|assumption]).
Qed.

Lemma Sprintf_d_free (sep : ascii) (n : Z) :
  strconv.digit sep = None -> free_of sep (Sprintf_d n).
Proof. apply string_of_uint_free. Qed.

Lemma parseDecimal_Sprintf_d (n : Z) :
  0 <= n -> parseDecimal (Sprintf_d n) = Some n.
Proof.
  intros Hn. unfold parseDecimal, Sprintf_d.
  rewrite NilEmpty.usu. cbn [option_map].
  rewrite DecimalN.Unsigned.of_to, Z2N.id by assumption.
  destruct (NilEmpty.string_of_uint _) eqn:E; [|reflexivity].
  exfalso.
  assert (Hnil : N.to_uint (Z.to_N n) <> Decimal.Nil).
  { destruct (Z.to_N n); cbn; [discriminate|apply Unsigned.to_uint_nonnil]. }
  destruct (N.to_uint (Z.to_N n)); cbn in E; try discriminate.
  now apply Hnil.
Qed.

Lemma append_nil_r (a : string) : a ++ "" = a.
Proof. induction a as [|c a IH]; cbn; [reflexivity|now rewrite IH]. Qed.

Lemma free_of_append (sep : ascii) (a b : string) :
  free_of sep a -> free_of sep b -> free_of sep (a ++ b).
Proof.
  intros Ha Hb. induction a as [|c a IH]; cbn in *; [assumption|].
  destruct Ha as [Hc Ha]. split; [assumption|]. now apply IH.
Qed.

Lemma fileName_assoc (fileStart fileEnd : Z) :
  fileName fileStart fileEnd =
  (Sprintf_d fileStart
   ++ (if negb (fileStart =? fileEnd) then "-" ++ Sprintf_d fileEnd else ""))
  ++ fileSuffix.
Proof. unfold fileName. now rewrite append_assoc. Qed.

Lemma fileName_free_of_slash (fileStart fileEnd : Z) :
  free_of "/" (fileName fileStart fileEnd).
Proof.
  unfold fileName.
  apply free_of_append; [now apply Sprintf_d_free|].
  apply free_of_append.
  - destruct (negb _); [|exact I].
    cbn. split; [discriminate|]. now apply Sprintf_d_free.
  - cbn. repeat split; discriminate.
Qed.

(** A key that ends in a file name reads back as that file's range. *)
Lemma decodeFileRange_fileName (prefix : string) (fileStart fileEnd : Z) :
  prefix = "" \/ (exists p, prefix = p ++ "/") ->
  0 <= fileStart -> 0 <= fileEnd ->
  decodeFileRange (prefix ++ fileName fileStart fileEnd)
  = Some (fileStart, fileEnd).
Proof.
  intros Hp Hs He. unfold decodeFileRange.
  assert (Hlast : last (strings.Split (prefix ++ fileName fileStart fileEnd) "/") ""
                  = fileName fileStart fileEnd).
  { destruct Hp as [->|[p ->]].
    - cbn [append]. now rewrite Split_free by apply fileName_free_of_slash.
    - rewrite append_assoc. cbn [append].
      rewrite Split_append, last_app_nonempty by apply Split_nonempty.
      now rewrite Split_free by apply fileName_free_of_slash. }
  rewrite Hlast, fileName_assoc, TrimSuffix_append.
  destruct (Z.eqb_spec fileStart fileEnd) as [E|E]; cbn [negb].
  - subst fileEnd. rewrite append_nil_r.
    rewrite Split_free by now apply Sprintf_d_free.
    now rewrite parseDecimal_Sprintf_d.
  - cbn [append]. rewrite Split_append.
    rewrite !Split_free by now apply Sprintf_d_free.
    cbn [app]. now rewrite !parseDecimal_Sprintf_d.
Qed.

Lemma keyPrefix_shape (ledgerSeq lpf fpp : Z) :
  keyPrefix ledgerSeq lpf fpp = ""
  \/ exists p, keyPrefix ledgerSeq lpf fpp = p ++ "/".
Proof.
  unfold keyPrefix, partitionPrefix.
  destruct (1 <? fpp); [right|now left].
  eexists. rewrite <- !append_assoc. reflexivity.
Qed.

Lemma wrap32_range (z : Z) : 0 <= wrap32 z < 2 ^ 32.
Proof. unfold wrap32. apply Z.mod_pos_bound. lia. Qed.

Lemma wrap32_small (z : Z) : 0 <= z < 2 ^ 32 -> wrap32 z = z.
Proof. intros H. unfold wrap32. now apply Z.mod_small. Qed.

(** [fileStart] never wraps and is the start of the file of [ledgerSeq]. *)
Lemma fileStartOf_exact (ledgerSeq lpf : Z) :
  is_u32 ledgerSeq -> 1 <= lpf ->
  fileStartOf ledgerSeq lpf = ledgerSeq / lpf * lpf
  /\ 0 <= fileStartOf ledgerSeq lpf <= ledgerSeq
  /\ ledgerSeq < ledgerSeq / lpf * lpf + lpf.
Proof.
  intros [H0 H1] Hl. unfold fileStartOf, mul32.
  pose proof (Z.mul_div_le ledgerSeq lpf ltac:(lia)) as Hle.
  pose proof (Z.mul_succ_div_gt ledgerSeq lpf ltac:(lia)) as Hgt.
  assert (0 <= ledgerSeq / lpf) by (apply Z.div_pos; lia).
  rewrite wrap32_small by nia. nia.
Qed.

(** [fileEnd] is at or past [ledgerSeq] exactly when it does not wrap. *)
Lemma fileEndOf_covers_iff (ledgerSeq lpf : Z) :
  is_u32 ledgerSeq -> is_u32 lpf -> 1 <= lpf ->
  (ledgerSeq <= fileEndOf ledgerSeq lpf
   <-> ledgerSeq / lpf * lpf + lpf - 1 < 2 ^ 32).
Proof.
  intros Hs Hlpf Hl.
  destruct (fileStartOf_exact ledgerSeq lpf Hs Hl) as (Eq & Hrange & Hgt).
  unfold fileEndOf, sub32, add32. rewrite Eq.
  set (fs := ledgerSeq / lpf * lpf) in *.
  unfold is_u32 in *.
  destruct (Z_lt_ge_dec (fs + lpf) (2 ^ 32)) as [Hlt|Hge].
  - rewrite (wrap32_small (fs + lpf)) by lia.
    rewrite wrap32_small by lia. lia.
  - assert (E1 : wrap32 (fs + lpf) = fs + lpf - 2 ^ 32).
    { unfold wrap32. symmetry. apply (Z.mod_unique _ _ 1); lia. }
    rewrite E1.
    destruct (Z.eq_dec (fs + lpf) (2 ^ 32)) as [E|E].
    + replace (fs + lpf - 2 ^ 32 - 1) with (-1) by lia.
      change (wrap32 (-1)) with (2 ^ 32 - 1). lia.
    + rewrite wrap32_small by lia. lia.
Qed.

(** C4, as it fails: with [ledgersPerFile = 3] the file of the last uint32
    sequence ends at [4294967295 + 3 - 1], which wraps to [1]; and a
    partition size of [65536 * 65536] wraps to zero, so the call panics. *)
Lemma GetObjectKey_range_counterexample :
  (is_u32 4294967295 /\ is_u32 3 /\ is_u32 1 /\ 1 <= 3 /\ 1 <= 1
   /\ GetObjectKeyFromSequenceNumber 4294967295 3 1 = Ok "4294967295-1.xdr.gz"
   /\ decodeFileRange "4294967295-1.xdr.gz" = Some (4294967295, 1)
   /\ ~ 4294967295 <= 1)
  /\ (is_u32 7 /\ is_u32 65536 /\ 1 <= 65536
      /\ GetObjectKeyFromSequenceNumber 7 65536 65536 = Panic DivideByZero).
Proof.
  unfold is_u32. repeat split; try reflexivity; try lia; discriminate.
Qed.

(** C4, amended: for uint32 arguments with [ledgersPerFile >= 1] and
    [filesPerPartition >= 1], the call returns a key unless the partition
    size wrapped to zero; the key reads back as
    [(fileStart, fileEnd)] with [fileStart <= sequence], and
    [sequence <= fileEnd] holds exactly when [fileStart + ledgersPerFile - 1]
    fits in 32 bits. *)
Theorem GetObjectKey_range (ledgerSeq lpf fpp : Z) :
  is_u32 ledgerSeq -> is_u32 lpf -> is_u32 fpp ->
  1 <= lpf -> 1 <= fpp ->
  fpp = 1 \/ mul32 lpf fpp <> 0 ->
  exists key fileStart fileEnd,
    GetObjectKeyFromSequenceNumber ledgerSeq lpf fpp = Ok key
    /\ decodeFileRange key = Some (fileStart, fileEnd)
    /\ fileStart = ledgerSeq / lpf * lpf
    /\ fileStart <= ledgerSeq
    /\ (ledgerSeq <= fileEnd <-> fileStart + lpf - 1 < 2 ^ 32).
Proof.
  intros Hs Hlpf Hfpp Hl Hf Hsize.
  destruct (fileStartOf_exact ledgerSeq lpf Hs Hl) as (Eq & Hrange & _).
  exists (keyPrefix ledgerSeq lpf fpp
          ++ fileName (fileStartOf ledgerSeq lpf) (fileEndOf ledgerSeq lpf)),
         (fileStartOf ledgerSeq lpf), (fileEndOf ledgerSeq lpf).
  split; [|split; [|split; [exact Eq|split; [lia|]]]].
  - rewrite GetObjectKey_cases.
    destruct (Z.ltb_spec lpf 1) as [H|H]; [lia|].
    destruct (Z.ltb_spec 1 fpp) as [H1|H1]; cbn [andb]; [|reflexivity].
    destruct (Z.eqb_spec (mul32 lpf fpp) 0) as [E|E]; [lia|reflexivity].
  - apply decodeFileRange_fileName.
    + apply keyPrefix_shape.
    + lia.
    + unfold fileEndOf, sub32. apply wrap32_range.
  - rewrite Eq. now apply fileEndOf_covers_iff.
Qed.

Lemma GetObjectKey_range_witness :
  exists key fileStart fileEnd,
    GetObjectKeyFromSequenceNumber 64005 1 64000 = Ok key
    /\ decodeFileRange key = Some (fileStart, fileEnd)
    /\ fileStart = 64005 / 1 * 1
    /\ fileStart <= 64005
    /\ (64005 <= fileEnd <-> fileStart + 1 - 1 < 2 ^ 32).
Proof.
  apply (GetObjectKey_range 64005 1 64000); unfold is_u32; try lia.
  right. vm_compute. discriminate.
Defined.

(** ** Latest directory *)

Lemma index_last {A} (l : list A) (d : A) :
  l <> [] -> index l (Z.of_nat (List.length l) - 1) = Ok (last l d).
Proof.
  intros Hne. unfold index.
  assert (Hlen : (0 < List.length l)%nat) by (destruct l; [contradiction|cbn; lia]).
  replace ((0 <=? _) && (_ <? _)) with true
    by (symmetry; apply andb_true_iff; split; [apply Z.leb_le|apply Z.ltb_lt]; lia).
  replace (Z.to_nat (Z.of_nat (List.length l) - 1)) with (List.length l - 1)%nat by lia.
  rewrite (app_removelast_last d Hne) at 1 2.
  rewrite length_app, nth_error_app2 by (cbn; lia).
  cbn [List.length]. 
  replace (_ - _)%nat with 0%nat by lia. reflexivity.
Qed.

Lemma getLatestDirectory_step_dirUpper (st : string * Z) (dir : string) :
  getLatestDirectory_step st dir =
  r <- dirUpper dir ;;
  match r with
  | Some upper => if snd st <? upper then Ok (dir, upper) else Ok st
  | None => Ok st
  end.
Proof.
  unfold getLatestDirectory_step, dirUpper, trailingParts.
  rewrite (index_last _ "") by apply Split_nonempty. cbn [bind].
  destruct (strings.Split (last _ _) "-") as [|p0 [|p1 [|p2 ps]]];
    try reflexivity.
  - change (Z.of_nat (List.length [p0; p1]) =? 2) with true.
    change (index [p0; p1] 1) with (Ok p1). cbn [bind].
    destruct (strconv.Atoi p1); reflexivity.
  - replace (Z.of_nat (List.length (p0 :: p1 :: p2 :: ps)) =? 2) with false;
      [reflexivity|].
    symmetry. apply Z.eqb_neq. cbn [List.length]. lia.
Qed.

Lemma getLatestDirectory_loop_app (a b : list string) (st : string * Z) :
  getLatestDirectory_loop (a ++ b) st =
  st' <- getLatestDirectory_loop a st ;; getLatestDirectory_loop b st'.
Proof.
  revert st. induction a as [|d a IH]; intros st; cbn; [reflexivity|].
  destruct (getLatestDirectory_step st d); cbn; [apply IH|reflexivity..].
Qed.

(** A name whose trailing segment has not exactly two parts leaves the
    state as it is. *)
Lemma getLatestDirectory_step_skip (st : string * Z) (dir : string) :
  List.length (trailingParts dir) <> 2%nat ->
  getLatestDirectory_step st dir = Ok st.
Proof.
  intros Hlen. rewrite getLatestDirectory_step_dirUpper. unfold dirUpper.
  destruct (trailingParts dir) as [|p0 [|p1 [|p2 ps]]]; try reflexivity.
  now contradiction Hlen.
Qed.

Lemma dirUpper_None_iff (dir : string) :
  dirUpper dir = Ok None <-> List.length (trailingParts dir) <> 2%nat.
Proof.
  unfold dirUpper.
  destruct (trailingParts dir) as [|p0 [|p1 [|p2 ps]]]; cbn;
    try (split; [discriminate|reflexivity]); try (split; [lia|reflexivity]).
  split; [|intros H; now contradiction H].
  destruct (strconv.Atoi p1); discriminate.
Qed.

(** Names that are passed over or whose end is at most the running maximum
    leave the state as it is. *)
Lemma getLatestDirectory_loop_below (l : list string) (st : string * Z) :
  (forall x, In x l ->
     dirUpper x = Ok None \/ exists v, dirUpper x = Ok (Some v) /\ v <= snd st) ->
  getLatestDirectory_loop l st = Ok st.
Proof.
  induction l as [|d l IH]; intros H; cbn; [reflexivity|].
  rewrite getLatestDirectory_step_dirUpper.
  destruct (H d (or_introl eq_refl)) as [E|[v [E Hv]]]; rewrite E; cbn [bind].
  - apply IH. intros x Hx. apply H. now right.
  - destruct (Z.ltb_spec (snd st) v) as [Hlt|Hge]; [lia|].
    apply IH. intros x Hx. apply H. now right.
Qed.

(** Names whose end is below [u] keep the running maximum below [u]. *)
Lemma getLatestDirectory_loop_under (l : list string) (st : string * Z) (u : Z) :
  snd st < u ->
  (forall x, In x l ->
     dirUpper x = Ok None \/ exists v, dirUpper x = Ok (Some v) /\ v < u) ->
  exists st', getLatestDirectory_loop l st = Ok st' /\ snd st' < u.
Proof.
  revert st. induction l as [|d l IH]; intros st Hst H; cbn; [eauto|].
  rewrite getLatestDirectory_step_dirUpper.
  assert (Hl : forall x, In x l ->
     dirUpper x = Ok None \/ exists v, dirUpper x = Ok (Some v) /\ v < u)
    by (intros x Hx; apply H; now right).
  destruct (H d (or_introl eq_refl)) as [E|[v [E Hv]]]; rewrite E; cbn [bind].
  - now apply IH.
  - destruct (snd st <? v); now apply IH.
Qed.

(** The state of the scan after any names: an earlier name with a positive
    end that no earlier name exceeds, or the initial state. *)
Lemma getLatestDirectory_loop_inv (l seen : list string) (st st' : string * Z) :
  st = ("", 0)
  \/ (In (fst st) seen /\ dirUpper (fst st) = Ok (Some (snd st)) /\ 0 < snd st) ->
  0 <= snd st ->
  (forall x v, In x seen -> dirUpper x = Ok (Some v) -> v <= snd st) ->
  getLatestDirectory_loop l st = Ok st' ->
  (st' = ("", 0)
   \/ (In (fst st') (seen ++ l) /\ dirUpper (fst st') = Ok (Some (snd st'))
       /\ 0 < snd st'))
  /\ 0 <= snd st'
  /\ (forall x v, In x (seen ++ l) -> dirUpper x = Ok (Some v) -> v <= snd st').
Proof.
  revert seen st. induction l as [|d l IH]; intros seen st Hst Hpos Hub; cbn.
  - intros [= <-]. rewrite app_nil_r. auto.
  - rewrite getLatestDirectory_step_dirUpper.
    replace (seen ++ d :: l)%list with ((seen ++ [d]) ++ l)%list
      by (rewrite <- app_assoc; reflexivity).
    destruct (dirUpper d) as [[u|]| |] eqn:Ed; cbn [bind]; try discriminate.
    + destruct (Z.ltb_spec (snd st) u) as [Hlt|Hge].
      * apply IH; cbn [fst snd]; [|lia|].
        -- right. split; [apply in_or_app; right; now left|]. split; [exact Ed|lia].
        -- intros x v Hx Hv. apply in_app_or in Hx as [Hx|[<-|[]]].
           ++ specialize (Hub x v Hx Hv). lia.
           ++ rewrite Ed in Hv. injection Hv as <-. lia.
      * apply IH; [|exact Hpos|].
        -- destruct Hst as [->|(Hin & Hd & Hu)]; [now left|right].
           split; [apply in_or_app; now left|now split].
        -- intros x v Hx Hv. apply in_app_or in Hx as [Hx|[<-|[]]].
           ++ now apply (Hub x v).
           ++ rewrite Ed in Hv. injection Hv as <-. lia.
    + apply IH; [|exact Hpos|].
      * destruct Hst as [->|(Hin & Hd & Hu)]; [now left|right].
        split; [apply in_or_app; now left|now split].
      * intros x v Hx Hv. apply in_app_or in Hx as [Hx|[<-|[]]].
        -- now apply (Hub x v).
        -- rewrite Ed in Hv. discriminate.
Qed.

(** C8, as it fails: the running maximum starts at 0 and the comparison is
    strict, so a name whose two parts are numeric and whose end is 0 is not
    selected; and the first part of a name is never read, so ["tmp-99999999"],
    whose first part is no number, is selected over a partition with a
    smaller end. *)
Lemma getLatestDirectory_selection_counterexample :
  (trailingParts "ledgers/net/0-0" = ["0"; "0"]
   /\ dirUpper "ledgers/net/0-0" = Ok (Some 0)
   /\ getLatestDirectory ["ledgers/net/0-0"] = Ok ""
   /\ "" <> "ledgers/net/0-0")
  /\ (trailingParts "tmp-99999999" = ["tmp"; "99999999"]
      /\ is_ok (strconv.Atoi "tmp") = false
      /\ dirUpper "ledgers/net/0-63999" = Ok (Some 63999)
      /\ getLatestDirectory ["ledgers/net/0-63999"; "tmp-99999999"]
         = Ok "tmp-99999999"
      /\ "tmp-99999999" <> "ledgers/net/0-63999").
Proof. repeat split; discriminate. Qed.

(** C8, amended.  The names that compete are those whose trailing segment
    splits on "-" into exactly two parts of which the second is an integer
    for [Atoi]; the first part is not read.  When such a name [d] has an end
    [u > 0], every name before it is passed over or has a smaller end, and
    every name after it is passed over or has an end at most [u], then [d]
    is selected: the first of the names with the largest end.  A name whose
    end is 0 is never selected, and when no listed name has a positive end
    the empty directory is returned. *)
Theorem getLatestDirectory_first_largest :
  (forall d u,
     dirUpper d = Ok (Some u)
     <-> exists part0 part1,
           trailingParts d = [part0; part1] /\ strconv.Atoi part1 = Ok u)
  /\ (forall pre post d u,
        dirUpper d = Ok (Some u) ->
        0 < u ->
        (forall x, In x pre ->
           dirUpper x = Ok None
           \/ exists v, dirUpper x = Ok (Some v) /\ v < u) ->
        (forall x, In x post ->
           dirUpper x = Ok None
           \/ exists v, dirUpper x = Ok (Some v) /\ v <= u) ->
        getLatestDirectory (pre ++ d :: post) = Ok d)
  /\ (forall directories d,
        getLatestDirectory directories = Ok d ->
        dirUpper d <> Ok (Some 0))
  /\ (forall directories,
        (forall x, In x directories ->
           dirUpper x = Ok None
           \/ exists v, dirUpper x = Ok (Some v) /\ v <= 0) ->
        getLatestDirectory directories = Ok "").
Proof.
  split; [|split; [|split]].
  - intros d u. unfold dirUpper.
    destruct (trailingParts d) as [|p0 [|p1 [|p2 ps]]];
      try (split; [discriminate|intros (a & b & E & _); discriminate]).
    destruct (strconv.Atoi p1) as [v|e|p] eqn:EA; cbn [wrapErr bind].
    + split.
      * intros [= <-]. exists p0, p1. now split.
      * intros (a & b & [= <- <-] & Hb). rewrite EA in Hb. now injection Hb as <-.
    + split; [discriminate|].
      intros (a & b & [= <- <-] & Hb). rewrite EA in Hb. discriminate.
    + split; [discriminate|].
      intros (a & b & [= <- <-] & Hb). rewrite EA in Hb. discriminate.
  - intros pre post d u Hd Hu Hpre Hpost. unfold getLatestDirectory.
    rewrite getLatestDirectory_loop_app.
    destruct (getLatestDirectory_loop_under pre ("", 0) u Hu Hpre)
      as (st & E & Hst).
    rewrite E. cbn [bind getLatestDirectory_loop].
    rewrite getLatestDirectory_step_dirUpper, Hd. cbn [bind].
    destruct (Z.ltb_spec (snd st) u) as [_|Hge]; [|lia].
    cbn [bind].
    now rewrite (getLatestDirectory_loop_below post (d, u) Hpost).
  - intros directories d. unfold getLatestDirectory.
    destruct (getLatestDirectory_loop directories ("", 0)) as [st| |] eqn:E;
      cbn [bind]; try discriminate.
    intros [= <-].
    pose proof (getLatestDirectory_loop_inv directories [] ("", 0) st
                  (or_introl eq_refl) ltac:(cbn; lia)
                  ltac:(intros x v []) E) as (Hst & _).
    destruct Hst as [->|(_ & Hd & Hu)].
    + cbn. discriminate.
    + rewrite Hd. intros [= H0]. lia.
  - intros directories Hall. unfold getLatestDirectory.
    now rewrite (getLatestDirectory_loop_below directories ("", 0) Hall).
Qed.

Lemma getLatestDirectory_first_largest_witness :
  getLatestDirectory
    (["ledgers/net/0-63999"; "skipped"]
     ++ "ledgers/net/64000-127999" :: ["ledgers/other/0-127999"; "x/0-0"])%list
  = Ok "ledgers/net/64000-127999"
  /\ dirUpper "tmp-99999999" <> Ok (Some 0)
  /\ getLatestDirectory ["ledgers/net/0-0"; "stray"] = Ok "".
Proof.
  split; [|split].
  - apply (proj1 (proj2 getLatestDirectory_first_largest) _ _ _ 127999).
    + reflexivity.
    + lia.
    + intros x [<-|[<-|[]]].
      * right. exists 63999. split; [reflexivity|lia].
      * left. reflexivity.
    + intros x [<-|[<-|[]]].
      * right. exists 127999. split; [reflexivity|lia].
      * right. exists 0. split; [reflexivity|lia].
  - apply (proj1 (proj2 (proj2 getLatestDirectory_first_largest))
             ["ledgers/net/0-63999"; "tmp-99999999"]).
    reflexivity.
  - apply (proj2 (proj2 (proj2 getLatestDirectory_first_largest))).
    intros x [<-|[<-|[]]].
    + right. exists 0. split; [reflexivity|lia].
    + left. reflexivity.
Defined.

Lemma Atoi_not_panic (s : string) (p : panic) : strconv.Atoi s <> Panic p.
Proof.
  unfold strconv.Atoi. destruct (_ && _).
  - destruct (strconv.strip_sign s) as [neg s'].
    destruct s'; [discriminate|].
    destruct (strconv.Atoi_fast_loop _ _); discriminate.
  - destruct (strconv.ParseInt_kind s); discriminate.
Qed.

Lemma dirUpper_not_panic (dir : string) (p : panic) : dirUpper dir <> Panic p.
Proof.
  unfold dirUpper.
  destruct (trailingParts dir) as [|p0 [|p1 [|p2 ps]]]; try discriminate.
  pose proof (Atoi_not_panic p1) as H.
  destruct (strconv.Atoi p1) as [n|e|q]; try discriminate.
  now contradiction (H q).
Qed.

(** C2, as it fails: the trailing segment of ["bad-dir"] splits on "-" into
    the two parts ["bad"] and ["dir"], [Atoi] rejects ["dir"], and the scan
    returns that error. *)
Lemma getLatestDirectory_bad_dir_counterexample :
  trailingParts "bad-dir" = ["bad"; "dir"]
  /\ getLatestDirectory
       ["ledgers/net/0-63999"; "ledgers/net/64000-127999"; "bad-dir"]
     = Err (Wrapf (NumError "Atoi" "dir" ErrSyntax)
                  "failed getting latest directory bad-dir")
  /\ GetLatestLedgerSequence Fixture.mixedBackend
     = Err (Wrapf (Wrapf (NumError "Atoi" "dir" ErrSyntax)
                         "failed getting latest directory bad-dir")
                  "failed getting latest directory").
Proof. repeat split. Qed.

(** C2, amended: a name whose trailing segment does not split on "-" into
    exactly two parts is passed over, the scan going on as if the name were
    not listed; a name with exactly two parts whose second part [Atoi]
    rejects ends the scan with that error, wrapped, when no name before it
    did; the first part is not looked at.  So the list that ends in
    ["bad-dir"] fails, and with ["baddir"] in its place
    ["ledgers/net/64000-127999"] is selected. *)
Theorem getLatestDirectory_malformed :
  (forall pre d post,
     List.length (trailingParts d) <> 2%nat ->
     getLatestDirectory (pre ++ d :: post) = getLatestDirectory (pre ++ post))
  /\ (forall pre d post part0 part1 e,
        trailingParts d = [part0; part1] ->
        strconv.Atoi part1 = Err e ->
        (forall x, In x pre -> is_err (dirUpper x) = false) ->
        getLatestDirectory (pre ++ d :: post)
        = Err (Wrapf e ("failed getting latest directory " ++ d)))
  /\ is_err (getLatestDirectory
               ["ledgers/net/0-63999"; "ledgers/net/64000-127999"; "bad-dir"])
     = true
  /\ getLatestDirectory
       ["ledgers/net/0-63999"; "ledgers/net/64000-127999"; "baddir"]
     = Ok "ledgers/net/64000-127999".
Proof.
  split; [|split; [|split; reflexivity]].
  - intros pre d post Hlen. unfold getLatestDirectory.
    rewrite !getLatestDirectory_loop_app.
    destruct (getLatestDirectory_loop pre ("", 0)) as [st| |]; cbn [bind];
      try reflexivity.
    cbn [getLatestDirectory_loop].
    now rewrite getLatestDirectory_step_skip.
  - intros pre d post part0 part1 e Hparts HAtoi Hpre.
    unfold getLatestDirectory. rewrite getLatestDirectory_loop_app.
    assert (Hok : forall st, exists st',
               getLatestDirectory_loop pre st = Ok st').
    { clear -Hpre. induction pre as [|x pre IH]; intros st; cbn; [eauto|].
      rewrite getLatestDirectory_step_dirUpper.
      pose proof (Hpre x (or_introl eq_refl)) as Hx.
      assert (Hrest : forall y, In y pre -> is_err (dirUpper y) = false)
        by (intros y Hy; apply Hpre; now right).
      destruct (dirUpper x) as [[v|]| |] eqn:E; cbn [bind].
      - destruct (snd st <? v); now apply IH.
      - now apply IH.
      - discriminate.
      - now apply dirUpper_not_panic in E. }
    destruct (Hok ("", 0)) as [st' E]. rewrite E. cbn [bind getLatestDirectory_loop].
    rewrite getLatestDirectory_step_dirUpper. unfold dirUpper.
    rewrite Hparts, HAtoi. reflexivity.
Qed.

Lemma getLatestDirectory_malformed_witness :
  getLatestDirectory (["ledgers/net/0-63999"] ++ "a-b-c" :: ["x/64000-127999"])
  = getLatestDirectory (["ledgers/net/0-63999"] ++ ["x/64000-127999"])
  /\ getLatestDirectory (["ledgers/net/0-63999"] ++ "x/0-1e5" :: ["x/64000-127999"])
     = Err (Wrapf (NumError "Atoi" "1e5" ErrSyntax)
                  ("failed getting latest directory " ++ "x/0-1e5")).
Proof.
  split.
  - apply (proj1 getLatestDirectory_malformed). vm_compute. discriminate.
  - apply (proj1 (proj2 getLatestDirectory_malformed) _ _ _ "0" "1e5").
    + reflexivity.
    + reflexivity.
    + intros x [<-|[]]. reflexivity.
Defined.

(** C3, as it fails: on a bucket that lists no directory the scan returns
    the empty directory and no error, the files of the empty directory are
    listed, and the lookup returns 0. *)
Lemma GetLatestLedgerSequence_empty_counterexample :
  ListDirectoryNames (lcmDataStore Fixture.emptyBackend) = Ok []
  /\ getLatestDirectory [] = Ok ""
  /\ GetLatestLedgerSequence Fixture.emptyBackend = Ok 0.
Proof. repeat split. Qed.

(** C3, amended: when no listed name has a trailing segment of exactly two
    parts (the empty listing included), the scan returns the empty directory
    and no error, and the lookup goes on with it: it lists the files of the
    empty directory name and returns what the file scan returns. *)
Theorem GetLatestLedgerSequence_no_directory
    (Reader : Type) (csb : CloudStorageBackend Reader) (dirs : list string) :
  ListDirectoryNames (lcmDataStore csb) = Ok dirs ->
  (forall d, In d dirs -> List.length (trailingParts d) <> 2%nat) ->
  getLatestDirectory dirs = Ok ""
  /\ GetLatestLedgerSequence csb =
     (fileNames <- wrapErr (ListFileNames (lcmDataStore csb) "")
                           "failed getting filenames in dir " ;;
      wrapErr (getLatestFileNameLedgerSequence fileNames "")
              "failed converting filename to ledger sequence")
  /\ (ListFileNames (lcmDataStore csb) "" = Ok [] ->
      GetLatestLedgerSequence csb = Ok 0).
Proof.
  intros Hlist Hdirs.
  assert (Hdir : getLatestDirectory dirs = Ok "").
  { unfold getLatestDirectory.
    rewrite getLatestDirectory_loop_below; [reflexivity|].
    intros x Hx. left. apply dirUpper_None_iff. now apply Hdirs. }
  assert (Hrun : GetLatestLedgerSequence csb =
     (fileNames <- wrapErr (ListFileNames (lcmDataStore csb) "")
                           "failed getting filenames in dir " ;;
      wrapErr (getLatestFileNameLedgerSequence fileNames "")
              "failed converting filename to ledger sequence")).
  { unfold GetLatestLedgerSequence. rewrite Hlist. cbn [wrapErr bind].
    rewrite Hdir. reflexivity. }
  split; [exact Hdir|split; [exact Hrun|]].
  intros Hfiles. rewrite Hrun, Hfiles. reflexivity.
Qed.

Lemma GetLatestLedgerSequence_no_directory_witness :
  getLatestDirectory ["ledgers"; "tmp/a-b-c"] = Ok ""
  /\ GetLatestLedgerSequence Fixture.strayBackend =
     (fileNames <- wrapErr (ListFileNames (lcmDataStore Fixture.strayBackend) "")
                           "failed getting filenames in dir " ;;
      wrapErr (getLatestFileNameLedgerSequence fileNames "")
              "failed converting filename to ledger sequence")
  /\ (ListFileNames (lcmDataStore Fixture.strayBackend) "" = Ok [] ->
      GetLatestLedgerSequence Fixture.strayBackend = Ok 0).
Proof.
  apply (GetLatestLedgerSequence_no_directory _ Fixture.strayBackend).
  - reflexivity.
  - intros d [<-|[<-|[]]]; vm_compute; discriminate.
Defined.

(** ** Latest file *)

Lemma ParseUint_loop_range (s : string) (n maxVal r : Z) :
  0 <= n <= maxVal ->
  strconv.ParseUint_loop s n maxVal = inr r -> 0 <= r <= maxVal.
Proof.
  revert n. induction s as [|c s IH]; intros n Hn; cbn.
  - intros [= <-]. exact Hn.
  - destruct (strconv.digit c) as [d|]; [|discriminate].
    destruct (_ <=? n); [discriminate|].
    destruct (Z.ltb_spec (wrap64 (wrap64 (n * 10) + d)) (wrap64 (n * 10)));
      cbn [orb]; [discriminate|].
    destruct (Z.ltb_spec maxVal (wrap64 (wrap64 (n * 10) + d)));
      [discriminate|].
    apply IH. split; [|assumption].
    unfold wrap64. apply Z.mod_pos_bound. lia.
Qed.

(** What [ParseUint] accepts with [bitSize = 32] is a uint32. *)
Lemma ParseUint_32_range (s : string) (v : Z) :
  strconv.ParseUint s 32 = Ok v -> is_u32 v.
Proof.
  unfold strconv.ParseUint, strconv.ParseUint_kind.
  destruct s as [|c s]; [discriminate|].
  destruct (strconv.ParseUint_loop _ _ _) as [k|r] eqn:E; [discriminate|].
  intros [= <-]. apply ParseUint_loop_range in E; unfold is_u32; lia.
Qed.

Lemma ParseUint_cases (s : string) (bitSize : Z) :
  (exists v, strconv.ParseUint s bitSize = Ok v)
  \/ (exists k, strconv.ParseUint s bitSize = Err (NumError "ParseUint" s k)).
Proof.
  unfold strconv.ParseUint.
  destruct (strconv.ParseUint_kind s bitSize); eauto.
Qed.

Lemma getLatestFileName_step_ok (latest v : Z) (fileName directory : string) :
  strconv.ParseUint (trimFileName fileName directory) 32 = Ok v ->
  getLatestFileName_step latest fileName directory = Ok (Z.max latest v).
Proof.
  intros H. unfold getLatestFileName_step. rewrite H. cbn [wrapErr bind].
  rewrite wrap32_small by (apply ParseUint_32_range in H; exact H).
  destruct (Z.ltb_spec latest v); f_equal; lia.
Qed.

Lemma getLatestFileName_loop_max (directory : string)
    (fileNames : list string) (vs : list Z) (latest : Z) :
  Forall2 (fun f v => strconv.ParseUint (trimFileName f directory) 32 = Ok v)
          fileNames vs ->
  exists r,
    getLatestFileName_loop fileNames directory latest = Ok r
    /\ latest <= r
    /\ (forall v, In v vs -> v <= r)
    /\ (r = latest \/ In r vs).
Proof.
  intros H. revert latest.
  induction H as [|f v fs vs Hf _ IH]; intros latest; cbn.
  - exists latest. repeat split; [lia|intros v []|now left].
  - rewrite (getLatestFileName_step_ok _ _ _ _ Hf). cbn [bind].
    destruct (IH (Z.max latest v)) as (r & E & Hle & Hub & Hin).
    exists r. split; [exact E|]. split; [lia|]. split.
    + intros w [<-|Hw]; [lia|now apply Hub].
    + destruct Hin as [->|Hin]; [|now right; right].
      destruct (Z.max_spec latest v) as [[_ ->]|[_ ->]]; [right; now left|now left].
Qed.

Lemma getLatestFileName_loop_fails (directory : string)
    (fileNames : list string) (latest : Z) :
  (exists f, In f fileNames
             /\ is_ok (strconv.ParseUint (trimFileName f directory) 32) = false) ->
  exists f k,
    In f fileNames
    /\ strconv.ParseUint (trimFileName f directory) 32
       = Err (NumError "ParseUint" (trimFileName f directory) k)
    /\ getLatestFileName_loop fileNames directory latest
       = Err (Wrapf (NumError "ParseUint" (trimFileName f directory) k)
                    ("failed converting filename to uint32 " ++ f)).
Proof.
  revert latest. induction fileNames as [|f0 fs IH]; intros latest [f [Hin Hbad]].
  - destruct Hin.
  - cbn [getLatestFileName_loop].
    destruct (ParseUint_cases (trimFileName f0 directory) 32) as [[v E]|[k E]].
    + rewrite (getLatestFileName_step_ok _ _ _ _ E). cbn [bind].
      destruct Hin as [->|Hin]; [rewrite E in Hbad; discriminate|].
      destruct (IH (Z.max latest v) (ex_intro _ f (conj Hin Hbad)))
        as (f' & k & Hin' & E' & Hrun).
      exists f', k. split; [now right|]. split; assumption.
    + exists f0, k. split; [now left|]. split; [exact E|].
      unfold getLatestFileName_step. rewrite E. reflexivity.
Qed.

(** C7: one file name that does not parse as a uint32, once the suffix and
    the directory prefix are stripped, makes the scan return the wrapped
    parse error of a name of the list; when every name parses, the scan
    returns the largest parsed sequence (0 for an empty listing). *)
Theorem getLatestFileNameLedgerSequence_spec
    (fileNames : list string) (directory : string) :
  ((exists f, In f fileNames
              /\ is_ok (strconv.ParseUint (trimFileName f directory) 32) = false) ->
   exists f k,
     In f fileNames
     /\ strconv.ParseUint (trimFileName f directory) 32
        = Err (NumError "ParseUint" (trimFileName f directory) k)
     /\ getLatestFileNameLedgerSequence fileNames directory
        = Err (Wrapf (NumError "ParseUint" (trimFileName f directory) k)
                     ("failed converting filename to uint32 " ++ f)))
  /\ (forall vs,
        Forall2 (fun f v =>
                   strconv.ParseUint (trimFileName f directory) 32 = Ok v)
                fileNames vs ->
        exists r,
          getLatestFileNameLedgerSequence fileNames directory = Ok r
          /\ (forall v, In v vs -> v <= r)
          /\ (vs <> [] -> In r vs)
          /\ (vs = [] -> r = 0)).
Proof.
  split; [apply getLatestFileName_loop_fails|].
  intros vs H.
  destruct (getLatestFileName_loop_max directory fileNames vs 0 H)
    as (r & E & Hle & Hub & Hin).
  exists r. split; [exact E|]. split; [exact Hub|]. split.
  - intros Hne. destruct Hin as [->|Hin]; [|exact Hin].
    destruct vs as [|v vs']; [contradiction|].
    assert (Hv : is_u32 v).
    { inversion H; subst. eapply ParseUint_32_range; eassumption. }
    pose proof (Hub v (or_introl eq_refl)). unfold is_u32 in Hv.
    left. lia.
  - intros ->. inversion H; subst. cbn in E. now injection E as <-.
Qed.

Lemma getLatestFileNameLedgerSequence_spec_witness :
  (exists f k,
     In f ["d/1.xdr.gz"; "d/x.xdr.gz"; "d/3.xdr.gz"]
     /\ strconv.ParseUint (trimFileName f "d") 32
        = Err (NumError "ParseUint" (trimFileName f "d") k)
     /\ getLatestFileNameLedgerSequence
          ["d/1.xdr.gz"; "d/x.xdr.gz"; "d/3.xdr.gz"] "d"
        = Err (Wrapf (NumError "ParseUint" (trimFileName f "d") k)
                     ("failed converting filename to uint32 " ++ f)))
  /\ (exists r,
        getLatestFileNameLedgerSequence
          ["d/1.xdr.gz"; "d/7.xdr.gz"; "d/3.xdr.gz"] "d" = Ok r
        /\ (forall v, In v [1; 7; 3] -> v <= r)
        /\ ([1; 7; 3] <> [] -> In r [1; 7; 3])
        /\ ([1; 7; 3] = [] -> r = 0)).
Proof.
  split.
  - apply (proj1 (getLatestFileNameLedgerSequence_spec _ "d")).
    exists "d/x.xdr.gz". split; [right; left; reflexivity|reflexivity].
  - apply (proj2 (getLatestFileNameLedgerSequence_spec _ "d") [1; 7; 3]).
    repeat constructor.
Defined.

(** ** Fetching one ledger *)

Lemma index_in_range {A} (s : list A) (i : Z) :
  0 <= i < Z.of_nat (List.length s) ->
  exists a, nth_error s (Z.to_nat i) = Some a /\ index s i = Ok a.
Proof.
  intros Hi. unfold index.
  replace ((0 <=? i) && (i <? _)) with true
    by (symmetry; apply andb_true_iff; split; [apply Z.leb_le|apply Z.ltb_lt]; lia).
  destruct (nth_error s (Z.to_nat i)) as [a|] eqn:E; [eauto|].
  apply nth_error_None in E. lia.
Qed.

Lemma index_out_of_range {A} (s : list A) (i : Z) :
  ~ 0 <= i < Z.of_nat (List.length s) ->
  index s i = Panic (IndexOutOfRange i (Z.of_nat (List.length s))).
Proof.
  intros Hi. unfold index.
  destruct (Z.leb_spec 0 i); destruct (Z.ltb_spec i (Z.of_nat (List.length s)));
    cbn [andb]; try reflexivity.
  lia.
Qed.

(** C1, as it fails: the object fetched for ledger 6 decodes to the batch
    that starts at 5 and holds one record; 6 is outside [5, 6), and the call
    panics on the index instead of returning an error. *)
Lemma GetLedger_outside_batch_counterexample :
  fetchBatch Fixture.gzip_NewReader Fixture.io_ReadAll Fixture.UnmarshalBinary
             Fixture.smallBackend 6
  = Ok {| StartSequence := 5; LedgerCloseMetas := ["lcm-5"] |}
  /\ ~ 5 <= 6 < 5 + 1
  /\ Fixture.getLedger Fixture.smallBackend 6 = Panic (IndexOutOfRange 1 1)
  /\ is_err (Fixture.getLedger Fixture.smallBackend 6) = false.
Proof. repeat split. lia. Qed.

Section GetLedgerProperties.

Context {LedgerCloseMeta Reader GzipReader : Type}.
Variable gzip_NewReader : Reader -> outcome GzipReader.
Variable io_ReadAll : GzipReader -> outcome (list Byte.byte).
Variable UnmarshalBinary :
  list Byte.byte -> outcome (LedgerCloseMetaBatch LedgerCloseMeta).
Variable csb : CloudStorageBackend Reader.

(** C1, amended: for a fetched batch, a sequence inside
    [startSequence, startSequence + len) gets the record at position
    [sequence - startSequence]; a sequence outside it, the batch lying
    within the uint32 sequences, makes the unchecked index fall outside the
    records and the call panics with an index-out-of-range run-time error
    rather than return an error. *)
Theorem GetLedger_index (sequence : Z)
    (batch : LedgerCloseMetaBatch LedgerCloseMeta) :
  let get := GetLedger gzip_NewReader io_ReadAll UnmarshalBinary csb in
  let start := StartSequence batch in
  let records := LedgerCloseMetas batch in
  let len := Z.of_nat (List.length records) in
  is_u32 sequence ->
  is_u32 start ->
  fetchBatch gzip_NewReader io_ReadAll UnmarshalBinary csb sequence = Ok batch ->
  (start <= sequence < start + len ->
   exists record,
     nth_error records (Z.to_nat (sequence - start)) = Some record
     /\ get sequence = Ok record)
  /\ (start + len <= 2 ^ 32 ->
      ~ start <= sequence < start + len ->
      get sequence = Panic (IndexOutOfRange (sub32 sequence start) len)
      /\ ~ 0 <= sub32 sequence start < len).
Proof.
  intros get start records len Hs Hb Hfetch.
  unfold get, GetLedger. rewrite Hfetch. cbn [bind].
  fold start records. unfold is_u32 in *.
  split.
  - intros Hin.
    assert (E : sub32 sequence start = sequence - start)
      by (unfold sub32; apply wrap32_small; lia).
    rewrite E. apply index_in_range. fold len. lia.
  - intros Hfit Hout.
    assert (Hidx : ~ 0 <= sub32 sequence start < len).
    { unfold sub32. destruct (Z_lt_ge_dec sequence start) as [Hlt|Hge].
      - assert (E : wrap32 (sequence - start) = sequence - start + 2 ^ 32).
        { unfold wrap32. symmetry. apply (Z.mod_unique _ _ (-1)); lia. }
        rewrite E. lia.
      - rewrite wrap32_small by lia. lia. }
    split; [|exact Hidx].
    now apply index_out_of_range.
Qed.

End GetLedgerProperties.

Lemma GetLedger_index_witness :
  (exists record,
     nth_error ["lcm-5"] (Z.to_nat (5 - 5)) = Some record
     /\ Fixture.getLedger Fixture.smallBackend 5 = Ok record)
  /\ (Fixture.getLedger Fixture.smallBackend 6
      = Panic (IndexOutOfRange (sub32 6 5) 1)
      /\ ~ 0 <= sub32 6 5 < 1).
Proof.
  split.
  - apply (proj1 (GetLedger_index Fixture.gzip_NewReader Fixture.io_ReadAll
                    Fixture.UnmarshalBinary Fixture.smallBackend 5
                    {| StartSequence := 5; LedgerCloseMetas := ["lcm-5"] |}
                    ltac:(unfold is_u32; lia) ltac:(unfold is_u32; cbn; lia)
                    eq_refl)).
    cbn. lia.
  - apply (proj2 (GetLedger_index Fixture.gzip_NewReader Fixture.io_ReadAll
                    Fixture.UnmarshalBinary Fixture.smallBackend 6
                    {| StartSequence := 5; LedgerCloseMetas := ["lcm-5"] |}
                    ltac:(unfold is_u32; lia) ltac:(unfold is_u32; cbn; lia)
                    eq_refl)).
    + cbn. lia.
    + cbn. lia.
Defined.

(** ** Probing a range *)

(** C9, as it fails: with [bounded = true] and an unreachable [from], the
    call returns after the first probe: [GetLedger] is not called on [to]. *)
Lemma PrepareRange_bounded_counterexample :
  bounded {| from := 7; to := 5; bounded := true |} = true
  /\ snd (Fixture.prepareRange Fixture.smallBackend
            {| from := 7; to := 5; bounded := true |} []) = [7]
  /\ ~ In 5 (snd (Fixture.prepareRange Fixture.smallBackend
                    {| from := 7; to := 5; bounded := true |} [])).
Proof.
  repeat split. cbn. intros [H|[]]. discriminate.
Qed.

Section PrepareRangeProperties.

Context {LedgerCloseMeta Reader GzipReader : Type}.
Variable gzip_NewReader : Reader -> outcome GzipReader.
Variable io_ReadAll : GzipReader -> outcome (list Byte.byte).
Variable UnmarshalBinary :
  list Byte.byte -> outcome (LedgerCloseMetaBatch LedgerCloseMeta).
Variable csb : CloudStorageBackend Reader.

(** C9, amended: [PrepareRange] calls [GetLedger] on [from]; it calls it
    on [to], after that, exactly when the probe of [from] succeeded and the
    range is bounded; it returns the error of the first probe that failed,
    wrapped with the name of the boundary, and nil when every probe it made
    succeeded. *)
Theorem PrepareRange_probes (r : Range) (log : list Z) :
  let get := GetLedger gzip_NewReader io_ReadAll UnmarshalBinary csb in
  let prepare := PrepareRange gzip_NewReader io_ReadAll UnmarshalBinary csb in
  snd (prepare r log)
  = (log ++ from r :: (if is_ok (get (from r)) && bounded r
                       then [to r] else []))%list
  /\ (forall e, get (from r) = Err e ->
        fst (prepare r log)
        = Err (Wrapf e ("error getting ledger " ++ Sprintf_d (from r))))
  /\ (forall e, is_ok (get (from r)) = true -> bounded r = true ->
        get (to r) = Err e ->
        fst (prepare r log)
        = Err (Wrapf e ("error getting ending ledger " ++ Sprintf_d (to r))))
  /\ (is_ok (get (from r)) = true ->
      (bounded r = true -> is_ok (get (to r)) = true) ->
      fst (prepare r log) = Ok tt).
Proof.
  intros get prepare.
  unfold prepare, PrepareRange, bindP, wrapErrP, call_GetLedger, retP.
  fold get.
  destruct (get (from r)) as [m|e|p] eqn:Efrom; cbn [wrapErr is_ok andb].
  - destruct (bounded r) eqn:Eb.
    + destruct (get (to r)) as [m'|e'|p'] eqn:Eto; cbn [wrapErr fst snd];
        rewrite <- app_assoc; cbn [app];
        repeat split; try discriminate; try congruence.
      * intros _ H. specialize (H eq_refl). discriminate.
      * intros _ H. specialize (H eq_refl). discriminate.
    + cbn [fst snd]. repeat split; congruence.
  - cbn [fst snd]. repeat split; try discriminate. congruence.
  - cbn [fst snd]. repeat split; discriminate.
Qed.

End PrepareRangeProperties.

Lemma PrepareRange_probes_witness :
  Fixture.prepareRange Fixture.smallBackend
    {| from := 5; to := 7; bounded := true |} []
  = (Err (Wrapf (Wrapf (External "object not found")
                       "failed getting file: 0-63999/7.xdr.gz")
                ("error getting ending ledger " ++ Sprintf_d 7)),
     [5; 7]).
Proof.
  pose proof (PrepareRange_probes Fixture.gzip_NewReader Fixture.io_ReadAll
                Fixture.UnmarshalBinary Fixture.smallBackend
                {| from := 5; to := 7; bounded := true |} []) as (Hcalls & _ & Hto & _).
  apply injective_projections.
  - apply Hto; reflexivity.
  - exact Hcalls.
Defined.

(** * Further properties *)

(** ** Decimal text is read back by [strconv] *)

Lemma of_uint_acc_ge (d : Decimal.uint) (acc : positive) :
  Z.pos acc <= Z.pos (Pos.of_uint_acc d acc).
Proof.
  revert acc. induction d; intros acc; cbn [Pos.of_uint_acc]; [lia|..];
    match goal with
    | |- _ <= Z.pos (Pos.of_uint_acc _ ?a) =>
        specialize (IHd a); lia
    end.
Qed.

Lemma ParseUint_loop_step (c : ascii) (d : Z) (s : string) (n maxVal : Z) :
  strconv.digit c = Some d -> 0 <= d -> 0 <= n ->
  n * 10 + d <= maxVal -> maxVal < 2 ^ 64 ->
  strconv.ParseUint_loop (String c s) n maxVal
  = strconv.ParseUint_loop s (n * 10 + d) maxVal.
Proof.
  intros Hc Hd Hn Hle Hmax. cbn [strconv.ParseUint_loop]. rewrite Hc.
  change ((2 ^ 64 - 1) / 10 + 1) with 1844674407370955162.
  change (2 ^ 64) with 18446744073709551616 in Hmax.
  destruct (Z.leb_spec 1844674407370955162 n) as [H|H]; [lia|].
  assert (E1 : wrap64 (n * 10) = n * 10)
    by (unfold wrap64; apply Z.mod_small; lia).
  rewrite E1.
  assert (E2 : wrap64 (n * 10 + d) = n * 10 + d)
    by (unfold wrap64; apply Z.mod_small; lia).
  rewrite E2.
  destruct (Z.ltb_spec (n * 10 + d) (n * 10)); [lia|].
  destruct (Z.ltb_spec maxVal (n * 10 + d)); [lia|reflexivity].
Qed.

Ltac digit_case IH k :=
  match goal with
  | Hle : Z.pos (Pos.of_uint_acc ?l ?a) <= _ |- _ =>
      pose proof (of_uint_acc_ge l a);
      rewrite (ParseUint_loop_step _ k); [|reflexivity|lia..];
      replace (_ * 10 + k) with (Z.pos a) by lia;
      now apply IH
  end.

Lemma ParseUint_loop_of_uint_acc (d : Decimal.uint) (acc : positive)
    (maxVal : Z) :
  maxVal < 2 ^ 64 ->
  Z.pos (Pos.of_uint_acc d acc) <= maxVal ->
  strconv.ParseUint_loop (NilEmpty.string_of_uint d) (Z.pos acc) maxVal
  = inr (Z.pos (Pos.of_uint_acc d acc)).
Proof.
  intros Hmax. revert acc.
  induction d; intros acc Hle;
    cbn [NilEmpty.string_of_uint Pos.of_uint_acc] in *;
    [ reflexivity
    | digit_case IHd 0 | digit_case IHd 1 | digit_case IHd 2
    | digit_case IHd 3 | digit_case IHd 4 | digit_case IHd 5
    | digit_case IHd 6 | digit_case IHd 7 | digit_case IHd 8
    | digit_case IHd 9 ].
Qed.

Ltac digit_head k :=
  match goal with
  | Hle : Z.pos (Pos.of_uint_acc ?l ?a) <= _ |- _ =>
      pose proof (of_uint_acc_ge l a);
      rewrite (ParseUint_loop_step _ k); [|reflexivity|lia..];
      now apply ParseUint_loop_of_uint_acc
  end.

Lemma ParseUint_loop_of_uint (d : Decimal.uint) (maxVal : Z) :
  0 <= maxVal < 2 ^ 64 ->
  Z.of_N (Pos.of_uint d) <= maxVal ->
  strconv.ParseUint_loop (NilEmpty.string_of_uint d) 0 maxVal
  = inr (Z.of_N (Pos.of_uint d)).
Proof.
  intros Hmax.
  induction d; intros Hle;
    cbn [NilEmpty.string_of_uint Pos.of_uint Z.of_N] in *;
    [ reflexivity
    | rewrite (ParseUint_loop_step _ 0); [now apply IHd|reflexivity|lia..]
    | digit_head 1 | digit_head 2 | digit_head 3 | digit_head 4
    | digit_head 5 | digit_head 6 | digit_head 7 | digit_head 8
    | digit_head 9 ].
Qed.

Lemma Sprintf_d_not_empty (n : Z) : Sprintf_d n <> "".
Proof.
  unfold Sprintf_d. intros E.
  assert (Hnil : N.to_uint (Z.to_N n) <> Decimal.Nil).
  { destruct (Z.to_N n); cbn; [discriminate|apply Unsigned.to_uint_nonnil]. }
  destruct (N.to_uint (Z.to_N n)); cbn in E; try discriminate.
  now apply Hnil.
Qed.

(** [ParseUint] reads back what [Sprintf("%d")] wrote, within the bit size. *)
Lemma ParseUint_Sprintf_d (n bitSize : Z) :
  0 <= bitSize <= 64 -> 0 <= n <= 2 ^ bitSize - 1 ->
  strconv.ParseUint (Sprintf_d n) bitSize = Ok n.
Proof.
  intros Hb Hn. unfold strconv.ParseUint, strconv.ParseUint_kind.
  pose proof (Sprintf_d_not_empty n) as Hne.
  destruct (Sprintf_d n) as [|c s] eqn:E; [contradiction|].
  rewrite <- E. unfold Sprintf_d.
  assert (Hval : Z.of_N (Pos.of_uint (N.to_uint (Z.to_N n))) = n).
  { change (Pos.of_uint (N.to_uint (Z.to_N n)))
      with (N.of_uint (N.to_uint (Z.to_N n))).
    rewrite DecimalN.Unsigned.of_to. lia. }
  assert (Hpow : 2 ^ bitSize <= 2 ^ 64) by (apply Z.pow_le_mono_r; lia).
  rewrite ParseUint_loop_of_uint; rewrite ?Hval; try lia.
  reflexivity.
Qed.

Lemma Atoi_fast_loop_of_uint_acc (d : Decimal.uint) (acc : positive) :
  strconv.Atoi_fast_loop (NilEmpty.string_of_uint d) (Z.pos acc)
  = Some (Z.pos (Pos.of_uint_acc d acc)).
Proof.
  revert acc.
  induction d; intros acc;
    cbn [NilEmpty.string_of_uint Pos.of_uint_acc strconv.Atoi_fast_loop];
    [reflexivity|..];
    match goal with
    | |- match strconv.digit ?c with _ => _ end = _ =>
        let v := eval vm_compute in (strconv.digit c) in
        change (strconv.digit c) with v; cbv iota
    end;
    rewrite <- IHd; f_equal; lia.
Qed.

Lemma Atoi_fast_loop_of_uint (d : Decimal.uint) :
  strconv.Atoi_fast_loop (NilEmpty.string_of_uint d) 0
  = Some (Z.of_N (Pos.of_uint d)).
Proof.
  induction d;
    cbn [NilEmpty.string_of_uint Pos.of_uint strconv.Atoi_fast_loop Z.of_N];
    [reflexivity|..];
    match goal with
    | |- match strconv.digit ?c with _ => _ end = _ =>
        let v := eval vm_compute in (strconv.digit c) in
        change (strconv.digit c) with v; cbv iota
    end;
    [exact IHd|..]; apply Atoi_fast_loop_of_uint_acc.
Qed.

Lemma strip_sign_free (s : string) :
  free_of "+" s -> free_of "-" s -> strconv.strip_sign s = (false, s).
Proof.
  destruct s as [|c s]; [reflexivity|].
  intros [Hp _] [Hm _].
  destruct c as [[] [] [] [] [] [] [] []]; try reflexivity;
    [now contradiction Hm|now contradiction Hp].
Qed.

(** [Atoi] reads back what [Sprintf("%d")] wrote, within a 64-bit int. *)
Lemma Atoi_Sprintf_d (n : Z) :
  0 <= n < 2 ^ 63 -> strconv.Atoi (Sprintf_d n) = Ok n.
Proof.
  intros Hn. unfold strconv.Atoi.
  pose proof (Sprintf_d_not_empty n) as Hne.
  assert (Hsign : strconv.strip_sign (Sprintf_d n) = (false, Sprintf_d n))
    by (apply strip_sign_free; now apply Sprintf_d_free).
  assert (Hval : Z.of_N (Pos.of_uint (N.to_uint (Z.to_N n))) = n).
  { change (Pos.of_uint (N.to_uint (Z.to_N n)))
      with (N.of_uint (N.to_uint (Z.to_N n))).
    rewrite DecimalN.Unsigned.of_to. lia. }
  destruct (_ && _).
  - rewrite Hsign.
    destruct (Sprintf_d n) as [|c s] eqn:E; [contradiction|].
    rewrite <- E. unfold Sprintf_d.
    now rewrite Atoi_fast_loop_of_uint, Hval.
  - unfold strconv.ParseInt_kind. rewrite Hsign.
    pose proof (ParseUint_Sprintf_d n 64 ltac:(lia) ltac:(lia)) as HP.
    unfold strconv.ParseUint in HP.
    destruct (Sprintf_d n) as [|c s] eqn:E; [contradiction|].
    rewrite <- E in *.
    destruct (strconv.ParseUint_kind (Sprintf_d n) 64) as [k|un];
      [discriminate|].
    injection HP as ->. cbn [negb andb].
    destruct (Z.leb_spec (2 ^ 63) n); [lia|reflexivity].
Qed.

(** ** The naming scheme *)

Lemma GetObjectKey_ok (ledgerSeq lpf fpp : Z) :
  1 <= lpf -> fpp <= 1 \/ mul32 lpf fpp <> 0 ->
  GetObjectKeyFromSequenceNumber ledgerSeq lpf fpp
  = Ok (keyPrefix ledgerSeq lpf fpp
        ++ fileName (fileStartOf ledgerSeq lpf) (fileEndOf ledgerSeq lpf)).
Proof.
  intros Hl Hp. rewrite GetObjectKey_cases.
  destruct (Z.ltb_spec lpf 1) as [H|H]; [lia|].
  destruct (Z.ltb_spec 1 fpp) as [H1|H1]; cbn [andb]; [|reflexivity].
  destruct (Z.eqb_spec (mul32 lpf fpp) 0) as [E|E]; [lia|reflexivity].
Qed.

Lemma decodeFileRange_key (ledgerSeq lpf fpp : Z) :
  is_u32 ledgerSeq -> 1 <= lpf ->
  decodeFileRange
    (keyPrefix ledgerSeq lpf fpp
     ++ fileName (fileStartOf ledgerSeq lpf) (fileEndOf ledgerSeq lpf))
  = Some (fileStartOf ledgerSeq lpf, fileEndOf ledgerSeq lpf).
Proof.
  intros Hs Hl.
  destruct (fileStartOf_exact ledgerSeq lpf Hs Hl) as (_ & Hrange & _).
  apply decodeFileRange_fileName; [apply keyPrefix_shape|lia|].
  unfold fileEndOf, sub32. apply wrap32_range.
Qed.

(** X1: two sequences get the same key exactly when they fall in the same file,
    as long as the partition size fits in 32 bits. *)
Theorem GetObjectKey_same_key_iff_same_file (s1 s2 lpf fpp : Z) :
  is_u32 s1 -> is_u32 s2 -> 1 <= lpf -> 1 <= fpp -> lpf * fpp < 2 ^ 32 ->
  (GetObjectKeyFromSequenceNumber s1 lpf fpp
   = GetObjectKeyFromSequenceNumber s2 lpf fpp
   <-> s1 / lpf = s2 / lpf).
Proof.
  intros H1 H2 Hl Hf Hfit.
  assert (HP : mul32 lpf fpp = lpf * fpp)
    by (unfold mul32; apply wrap32_small; nia).
  assert (Hnz : fpp <= 1 \/ mul32 lpf fpp <> 0) by (right; nia).
  rewrite !GetObjectKey_ok by assumption.
  split.
  - intros [= E].
    apply (f_equal decodeFileRange) in E.
    rewrite !decodeFileRange_key in E by assumption.
    injection E as Es _.
    destruct (fileStartOf_exact s1 lpf H1 Hl) as (E1 & _).
    destruct (fileStartOf_exact s2 lpf H2 Hl) as (E2 & _).
    rewrite E1, E2 in Es. nia.
  - intros E. f_equal.
    assert (Ep : s1 / mul32 lpf fpp = s2 / mul32 lpf fpp).
    { rewrite HP, <- !Z.div_div by lia. now rewrite E. }
    unfold keyPrefix, fileStartOf, fileEndOf, fileStartOf.
    now rewrite E, Ep.
Qed.

Lemma GetObjectKey_same_key_iff_same_file_witness :
  GetObjectKeyFromSequenceNumber 8 4 32 = GetObjectKeyFromSequenceNumber 11 4 32
  <-> 8 / 4 = 11 / 4.
Proof.
  apply GetObjectKey_same_key_iff_same_file; unfold is_u32; lia.
Defined.

(** X2: with a partition prefix whose size fits in 32 bits, the key names a
    partition that starts at or before the file; when the end of the partition
    does not wrap, the file lies inside the partition and the sequence inside
    the file; when it wraps, the end written in the prefix is below the
    start. *)
Theorem GetObjectKey_file_in_partition (ledgerSeq lpf fpp : Z) :
  is_u32 ledgerSeq -> 1 <= lpf -> 1 < fpp -> lpf * fpp < 2 ^ 32 ->
  exists partitionStart partitionEnd fileStart fileEnd,
    GetObjectKeyFromSequenceNumber ledgerSeq lpf fpp
    = Ok (partitionPrefix partitionStart partitionEnd
          ++ fileName fileStart fileEnd)
    /\ partitionStart = ledgerSeq / (lpf * fpp) * (lpf * fpp)
    /\ fileStart = ledgerSeq / lpf * lpf
    /\ partitionStart <= fileStart <= ledgerSeq
    /\ (partitionStart + lpf * fpp - 1 < 2 ^ 32 ->
        partitionEnd = partitionStart + lpf * fpp - 1
        /\ fileEnd = fileStart + lpf - 1
        /\ ledgerSeq <= fileEnd <= partitionEnd)
    /\ (2 ^ 32 <= partitionStart + lpf * fpp - 1 ->
        partitionEnd < partitionStart).
Proof.
  intros Hs Hl Hf Hfit.
  set (P := lpf * fpp) in *.
  assert (HP : mul32 lpf fpp = P) by (unfold mul32; apply wrap32_small; nia).
  assert (HPpos : 0 < P) by nia.
  destruct (fileStartOf_exact ledgerSeq lpf Hs Hl) as (Efs & Hfs & Hgt).
  unfold is_u32 in Hs.
  pose proof (Z.mul_div_le ledgerSeq P HPpos) as Hps.
  pose proof (Z.mul_succ_div_gt ledgerSeq P HPpos) as Hps'.
  assert (Hq : 0 <= ledgerSeq / P) by (apply Z.div_pos; lia).
  assert (Eps : mul32 (ledgerSeq / P) P = ledgerSeq / P * P)
    by (unfold mul32; apply wrap32_small; nia).
  set (ps := ledgerSeq / P * P) in *.
  exists ps, (sub32 (add32 ps P) 1),
         (fileStartOf ledgerSeq lpf), (fileEndOf ledgerSeq lpf).
  assert (Hinner : ps <= ledgerSeq / lpf * lpf
                   /\ ledgerSeq / lpf * lpf + lpf <= ps + P).
  { subst ps P. rewrite <- (Z.div_div ledgerSeq lpf fpp) by lia.
    set (q := ledgerSeq / lpf).
    pose proof (Z.mul_div_le q fpp ltac:(lia)).
    pose proof (Z.mul_succ_div_gt q fpp ltac:(lia)).
    nia. }
  split; [|split; [reflexivity|split; [exact Efs|split; [lia|split]]]].
  - rewrite GetObjectKey_ok by (try right; lia).
    unfold keyPrefix. destruct (Z.ltb_spec 1 fpp); [|lia].
    cbv zeta. now rewrite HP, Eps.
  - intros Hnowrap.
    assert (Epe : sub32 (add32 ps P) 1 = ps + P - 1).
    { unfold sub32, add32.
      destruct (Z.eq_dec (ps + P) (2 ^ 32)) as [E|E].
      - rewrite E. change (wrap32 (2 ^ 32)) with 0.
        change (wrap32 (0 - 1)) with (2 ^ 32 - 1). lia.
      - rewrite (wrap32_small (ps + P)) by lia. apply wrap32_small. lia. }
    assert (Hfe : ledgerSeq / lpf * lpf + lpf - 1 < 2 ^ 32) by lia.
    pose proof (proj2 (fileEndOf_covers_iff ledgerSeq lpf ltac:(unfold is_u32; lia)
                         ltac:(unfold is_u32; nia) Hl) Hfe) as Hcov.
    assert (Efe : fileEndOf ledgerSeq lpf = ledgerSeq / lpf * lpf + lpf - 1).
    { unfold fileEndOf, sub32, add32. rewrite Efs.
      destruct (Z.eq_dec (ledgerSeq / lpf * lpf + lpf) (2 ^ 32)) as [E|E].
      - rewrite E. change (wrap32 (2 ^ 32)) with 0.
        change (wrap32 (0 - 1)) with (2 ^ 32 - 1). lia.
      - rewrite (wrap32_small (_ + lpf)) by lia. apply wrap32_small. lia. }
    rewrite Epe, Efe, Efs. lia.
  - intros Hwrap.
    assert (Epe : sub32 (add32 ps P) 1 = ps + P - 1 - 2 ^ 32).
    { unfold sub32, add32.
      assert (E1 : wrap32 (ps + P) = ps + P - 2 ^ 32).
      { unfold wrap32. symmetry. apply (Z.mod_unique _ _ 1); lia. }
      rewrite E1, wrap32_small by lia. lia. }
    rewrite Epe. lia.
Qed.

Lemma GetObjectKey_file_in_partition_witness :
  exists partitionStart partitionEnd fileStart fileEnd,
    GetObjectKeyFromSequenceNumber 9 4 32
    = Ok (partitionPrefix partitionStart partitionEnd
          ++ fileName fileStart fileEnd)
    /\ partitionStart = 9 / (4 * 32) * (4 * 32)
    /\ fileStart = 9 / 4 * 4
    /\ partitionStart <= fileStart <= 9
    /\ (partitionStart + 4 * 32 - 1 < 2 ^ 32 ->
        partitionEnd = partitionStart + 4 * 32 - 1
        /\ fileEnd = fileStart + 4 - 1
        /\ 9 <= fileEnd <= partitionEnd)
    /\ (2 ^ 32 <= partitionStart + 4 * 32 - 1 ->
        partitionEnd < partitionStart).
Proof.
  apply GetObjectKey_file_in_partition; unfold is_u32; lia.
Defined.

(** X3: with the constants of the backend (one ledger per file, 64000 files per
    partition) every uint32 sequence has a key, "{start}-{end}/{sequence}"
    and the suffix; the partition covers the sequence except in the last
    partition, which starts at 4294912000 and whose end wraps to 8703. *)
Theorem GetObjectKey_deployed (sequence : Z) :
  is_u32 sequence ->
  let partitionStart := sequence / 64000 * 64000 in
  let partitionEnd := wrap32 (partitionStart + 63999) in
  GetObjectKeyFromSequenceNumber sequence ledgersPerFile filesPerPartition
  = Ok (Sprintf_d partitionStart ++ "-" ++ Sprintf_d partitionEnd ++ "/"
        ++ Sprintf_d sequence ++ ".xdr.gz")
  /\ (sequence < 4294912000 ->
      partitionEnd = partitionStart + 63999
      /\ partitionStart <= sequence <= partitionEnd)
  /\ (4294912000 <= sequence ->
      partitionStart = 4294912000 /\ partitionEnd = 8703).
Proof.
  intros Hs ps pe. unfold is_u32 in Hs.
  change (2 ^ 32) with 4294967296 in Hs.
  pose proof (Z.mul_div_le sequence 64000 ltac:(lia)) as Hle.
  pose proof (Z.mul_succ_div_gt sequence 64000 ltac:(lia)) as Hgt.
  assert (Hq : 0 <= sequence / 64000) by (apply Z.div_pos; lia).
  split; [|split].
  - rewrite GetObjectKey_ok by (unfold ledgersPerFile, filesPerPartition;
                                 first [lia|right; vm_compute; discriminate]).
    unfold keyPrefix, partitionPrefix, fileName, fileEndOf, fileStartOf,
      ledgersPerFile, filesPerPartition, fileSuffix.
    change (1 <? 64000) with true. change (mul32 1 64000) with 64000.
    cbv iota zeta.
    assert (Eps : mul32 (sequence / 64000) 64000 = ps).
    { unfold mul32. apply wrap32_small. change (2 ^ 32) with 4294967296. lia. }
    assert (Epe : sub32 (add32 ps 64000) 1 = pe).
    { unfold sub32, add32, wrap32, pe, wrap32.
      rewrite Zminus_mod_idemp_l. f_equal. lia. }
    assert (Efs : mul32 (sequence / 1) 1 = sequence).
    { unfold mul32. rewrite Z.div_1_r, Z.mul_1_r. apply wrap32_small.
      change (2 ^ 32) with 4294967296. lia. }
    assert (Efe : sub32 (add32 sequence 1) 1 = sequence).
    { unfold sub32, add32, wrap32. rewrite Zminus_mod_idemp_l.
      replace (sequence + 1 - 1) with sequence by lia.
      apply Z.mod_small. change (2 ^ 32) with 4294967296. lia. }
    rewrite Eps, Epe, Efs, Efe, Z.eqb_refl. cbn [negb].
    repeat first [rewrite append_assoc | progress cbn [append]].
    reflexivity.
  - intros Hlow.
    assert (Hps : ps + 63999 < 4294967296).
    { assert (sequence / 64000 <= 67107) by (apply Z.lt_succ_r; apply Z.div_lt_upper_bound; lia).
      unfold ps. lia. }
    assert (E : pe = ps + 63999).
    { unfold pe. apply wrap32_small. change (2 ^ 32) with 4294967296.
      unfold ps in *. lia. }
    rewrite E. unfold ps. lia.
  - intros Hhigh.
    assert (Eq : sequence / 64000 = 67108).
    { symmetry. apply (Z.div_unique _ _ _ (sequence - 4294912000)); lia. }
    unfold pe, ps. rewrite Eq. split; reflexivity.
Qed.

Lemma GetObjectKey_deployed_witness :
  GetObjectKeyFromSequenceNumber 4294967295 ledgersPerFile filesPerPartition
  = Ok "4294912000-8703/4294967295.xdr.gz".
Proof.
  apply (proj1 (GetObjectKey_deployed 4294967295 ltac:(unfold is_u32; lia))).
Defined.

Lemma deployed_key_decodes (sequence : Z) :
  is_u32 sequence ->
  exists key,
    GetObjectKeyFromSequenceNumber sequence ledgersPerFile filesPerPartition
    = Ok key
    /\ decodeFileRange key = Some (sequence, sequence).
Proof.
  intros Hs. eexists. split.
  - apply GetObjectKey_ok; [unfold ledgersPerFile; lia|].
    right. vm_compute. discriminate.
  - rewrite decodeFileRange_key by (try assumption; unfold ledgersPerFile; lia).
    unfold is_u32 in Hs.
    assert (Efs : fileStartOf sequence ledgersPerFile = sequence).
    { unfold fileStartOf, mul32, ledgersPerFile.
      rewrite Z.div_1_r, Z.mul_1_r. now apply wrap32_small. }
    assert (Efe : fileEndOf sequence ledgersPerFile = sequence).
    { unfold fileEndOf. rewrite Efs.
      unfold sub32, add32, wrap32, ledgersPerFile.
      rewrite Zminus_mod_idemp_l.
      replace (sequence + 1 - 1) with sequence by lia.
      now apply Z.mod_small. }
    now rewrite Efs, Efe.
Qed.

Section GetLedgerInversion.

Context {LedgerCloseMeta Reader GzipReader : Type}.
Variable gzip_NewReader : Reader -> outcome GzipReader.
Variable io_ReadAll : GzipReader -> outcome (list Byte.byte).
Variable UnmarshalBinary :
  list Byte.byte -> outcome (LedgerCloseMetaBatch LedgerCloseMeta).
Variable csb : CloudStorageBackend Reader.

(** X4: a ledger is returned only when the store holds an object under the key
    of the sequence, the object decompresses and decodes, and the record is
    the one at index [sequence - StartSequence] (modulo 2^32) of the decoded
    batch. *)
Theorem GetLedger_ok_inv (sequence : Z) (record : LedgerCloseMeta) :
  is_u32 sequence ->
  GetLedger gzip_NewReader io_ReadAll UnmarshalBinary csb sequence = Ok record ->
  exists key reader gzipReader objectBytes batch,
    GetObjectKeyFromSequenceNumber sequence ledgersPerFile filesPerPartition
    = Ok key
    /\ decodeFileRange key = Some (sequence, sequence)
    /\ GetFile (lcmDataStore csb) key = Ok reader
    /\ gzip_NewReader reader = Ok gzipReader
    /\ io_ReadAll gzipReader = Ok objectBytes
    /\ UnmarshalBinary objectBytes = Ok batch
    /\ nth_error (LedgerCloseMetas batch)
                 (Z.to_nat (sub32 sequence (StartSequence batch)))
       = Some record.
Proof.
  intros Hs. destruct (deployed_key_decodes sequence Hs) as (key & Hkey & Hdec).
  unfold GetLedger, fetchBatch. rewrite Hkey. cbn [wrapErr bind].
  destruct (GetFile (lcmDataStore csb) key) as [reader| |] eqn:E1;
    cbn [wrapErr bind]; try discriminate.
  destruct (gzip_NewReader reader) as [gz| |] eqn:E2;
    cbn [wrapErr bind]; try discriminate.
  destruct (io_ReadAll gz) as [bytes| |] eqn:E3;
    cbn [wrapErr bind]; try discriminate.
  destruct (UnmarshalBinary bytes) as [batch| |] eqn:E4;
    cbn [wrapErr bind]; try discriminate.
  unfold index.
  destruct (_ && _); [|discriminate].
  destruct (nth_error _ _) as [a|] eqn:E5; [|discriminate].
  intros [= <-]. exists key, reader, gz, bytes, batch. repeat split; assumption.
Qed.

(** X5: every error [GetLedger] returns is a collaborator's error, wrapped with
    a message that names the key of the sequence: with the constants of the
    backend the key derivation does not fail, and the index does not return
    an error. *)
Theorem GetLedger_err_inv (sequence : Z) (e : error) :
  is_u32 sequence ->
  GetLedger gzip_NewReader io_ReadAll UnmarshalBinary csb sequence = Err e ->
  exists key cause,
    GetObjectKeyFromSequenceNumber sequence ledgersPerFile filesPerPartition
    = Ok key
    /\ ((GetFile (lcmDataStore csb) key = Err cause
         /\ e = Wrapf cause ("failed getting file: " ++ key))
        \/ (exists reader,
              GetFile (lcmDataStore csb) key = Ok reader
              /\ gzip_NewReader reader = Err cause
              /\ e = Wrapf cause ("failed getting file: " ++ key))
        \/ (exists reader gzipReader,
              GetFile (lcmDataStore csb) key = Ok reader
              /\ gzip_NewReader reader = Ok gzipReader
              /\ io_ReadAll gzipReader = Err cause
              /\ e = Wrapf cause ("failed reading file: " ++ key))
        \/ (exists reader gzipReader objectBytes,
              GetFile (lcmDataStore csb) key = Ok reader
              /\ gzip_NewReader reader = Ok gzipReader
              /\ io_ReadAll gzipReader = Ok objectBytes
              /\ UnmarshalBinary objectBytes = Err cause
              /\ e = Wrapf cause ("failed unmarshalling file: " ++ key))).
Proof.
  intros Hs. destruct (deployed_key_decodes sequence Hs) as (key & Hkey & _).
  unfold GetLedger, fetchBatch. rewrite Hkey. cbn [wrapErr bind].
  destruct (GetFile (lcmDataStore csb) key) as [reader|c|] eqn:E1;
    cbn [wrapErr bind]; try discriminate.
  2: { intros [= <-]. exists key, c. split; [reflexivity|]. left. now split. }
  destruct (gzip_NewReader reader) as [gz|c|] eqn:E2;
    cbn [wrapErr bind]; try discriminate.
  2: { intros [= <-]. exists key, c. split; [reflexivity|].
       right; left. exists reader. now repeat split. }
  destruct (io_ReadAll gz) as [bytes|c|] eqn:E3;
    cbn [wrapErr bind]; try discriminate.
  2: { intros [= <-]. exists key, c. split; [reflexivity|].
       right; right; left. exists reader, gz. now repeat split. }
  destruct (UnmarshalBinary bytes) as [batch|c|] eqn:E4;
    cbn [wrapErr bind]; try discriminate.
  2: { intros [= <-]. exists key, c. split; [reflexivity|].
       right; right; right. exists reader, gz, bytes. now repeat split. }
  unfold index.
  destruct (_ && _); [|discriminate].
  destruct (nth_error _ _); discriminate.
Qed.

End GetLedgerInversion.

Lemma GetLedger_ok_inv_witness :
  exists key reader gzipReader objectBytes batch,
    GetObjectKeyFromSequenceNumber 5 ledgersPerFile filesPerPartition = Ok key
    /\ decodeFileRange key = Some (5, 5)
    /\ GetFile (lcmDataStore Fixture.smallBackend) key = Ok reader
    /\ Fixture.gzip_NewReader reader = Ok gzipReader
    /\ Fixture.io_ReadAll gzipReader = Ok objectBytes
    /\ Fixture.UnmarshalBinary objectBytes = Ok batch
    /\ nth_error (LedgerCloseMetas batch)
                 (Z.to_nat (sub32 5 (StartSequence batch)))
       = Some "lcm-5".
Proof.
  apply (GetLedger_ok_inv Fixture.gzip_NewReader Fixture.io_ReadAll
           Fixture.UnmarshalBinary Fixture.smallBackend 5 "lcm-5").
  - unfold is_u32. lia.
  - reflexivity.
Defined.

Lemma GetLedger_err_inv_witness :
  exists key cause,
    GetObjectKeyFromSequenceNumber 7 ledgersPerFile filesPerPartition = Ok key
    /\ ((GetFile (lcmDataStore Fixture.smallBackend) key = Err cause
         /\ Wrapf (External "object not found")
                  "failed getting file: 0-63999/7.xdr.gz"
            = Wrapf cause ("failed getting file: " ++ key))
        \/ (exists reader,
              GetFile (lcmDataStore Fixture.smallBackend) key = Ok reader
              /\ Fixture.gzip_NewReader reader = Err cause
              /\ Wrapf (External "object not found")
                       "failed getting file: 0-63999/7.xdr.gz"
                 = Wrapf cause ("failed getting file: " ++ key))
        \/ (exists reader gzipReader,
              GetFile (lcmDataStore Fixture.smallBackend) key = Ok reader
              /\ Fixture.gzip_NewReader reader = Ok gzipReader
              /\ Fixture.io_ReadAll gzipReader = Err cause
              /\ Wrapf (External "object not found")
                       "failed getting file: 0-63999/7.xdr.gz"
                 = Wrapf cause ("failed reading file: " ++ key))
        \/ (exists reader gzipReader objectBytes,
              GetFile (lcmDataStore Fixture.smallBackend) key = Ok reader
              /\ Fixture.gzip_NewReader reader = Ok gzipReader
              /\ Fixture.io_ReadAll gzipReader = Ok objectBytes
              /\ Fixture.UnmarshalBinary objectBytes = Err cause
              /\ Wrapf (External "object not found")
                       "failed getting file: 0-63999/7.xdr.gz"
                 = Wrapf cause ("failed unmarshalling file: " ++ key))).
Proof.
  apply (GetLedger_err_inv Fixture.gzip_NewReader Fixture.io_ReadAll
           Fixture.UnmarshalBinary Fixture.smallBackend 7).
  - unfold is_u32. lia.
  - reflexivity.
Defined.

(** ** What the directory scan returns *)

(** X6: the directory the scan returns is either a listed name, with a positive
    end that no listed name exceeds, or the empty name, and then no listed
    name has a positive end.  The scan makes up no name. *)
Theorem getLatestDirectory_sound (directories : list string) (d : string) :
  getLatestDirectory directories = Ok d ->
  (d = ""
   /\ forall x v, In x directories -> dirUpper x = Ok (Some v) -> v <= 0)
  \/ (exists u,
        In d directories /\ dirUpper d = Ok (Some u) /\ 0 < u
        /\ forall x v, In x directories -> dirUpper x = Ok (Some v) -> v <= u).
Proof.
  unfold getLatestDirectory.
  destruct (getLatestDirectory_loop directories ("", 0)) as [st| |] eqn:E;
    cbn [bind]; try discriminate.
  intros [= <-].
  destruct (getLatestDirectory_loop_inv directories [] ("", 0) st)
    as (Hst & Hpos & Hub); cbn [fst snd]; auto; try lia.
  { intros x v []. }
  cbn [app] in *.
  destruct Hst as [->|(Hin & Hd & Hu)].
  - left. split; [reflexivity|exact Hub].
  - right. exists (snd st). auto.
Qed.

Lemma getLatestDirectory_sound_witness :
  ("ledgers/net/64000-127999" = ""
   /\ forall x v,
        In x ["ledgers/net/0-63999"; "ledgers/net/64000-127999"; "tmp"] ->
        dirUpper x = Ok (Some v) -> v <= 0)
  \/ (exists u,
        In "ledgers/net/64000-127999"
           ["ledgers/net/0-63999"; "ledgers/net/64000-127999"; "tmp"]
        /\ dirUpper "ledgers/net/64000-127999" = Ok (Some u) /\ 0 < u
        /\ forall x v,
             In x ["ledgers/net/0-63999"; "ledgers/net/64000-127999"; "tmp"] ->
             dirUpper x = Ok (Some v) -> v <= u).
Proof.
  apply getLatestDirectory_sound. reflexivity.
Defined.

Lemma getLatestDirectory_loop_outcome (l : list string) (st : string * Z) :
  (exists st', getLatestDirectory_loop l st = Ok st'
               /\ forall x, In x l -> is_err (dirUpper x) = false)
  \/ (exists x e, getLatestDirectory_loop l st = Err e
                  /\ In x l /\ dirUpper x = Err e).
Proof.
  revert st. induction l as [|d l IH]; intros st; cbn.
  - left. exists st. split; [reflexivity|intros x []].
  - rewrite getLatestDirectory_step_dirUpper.
    destruct (dirUpper d) as [r|e|p] eqn:Ed; cbn [bind].
    + assert (Hnext : exists st1,
                 match r with
                 | Some upper => if snd st <? upper then Ok (d, upper) else Ok st
                 | None => Ok st
                 end = Ok st1).
      { destruct r as [u|]; [destruct (snd st <? u)|]; eauto. }
      destruct Hnext as [st1 ->]. cbn [bind].
      destruct (IH st1) as [(st' & E & Hall)|(x & e & E & Hin & Hx)].
      * left. exists st'. split; [exact E|].
        intros x [<-|Hx]; [now rewrite Ed|now apply Hall].
      * right. exists x, e. split; [exact E|]. split; [now right|exact Hx].
    + right. exists d, e. split; [reflexivity|]. split; [now left|exact Ed].
    + now apply dirUpper_not_panic in Ed.
Qed.

(** X7: the scan fails exactly when some listed name has a two-part trailing
    segment whose second part [Atoi] rejects, and the error is that name's;
    it never panics. *)
Theorem getLatestDirectory_err_iff (directories : list string) :
  ((exists e, getLatestDirectory directories = Err e)
   <-> exists x, In x directories /\ is_err (dirUpper x) = true)
  /\ (forall e, getLatestDirectory directories = Err e ->
        exists x, In x directories /\ dirUpper x = Err e)
  /\ (forall p, getLatestDirectory directories <> Panic p).
Proof.
  unfold getLatestDirectory.
  destruct (getLatestDirectory_loop_outcome directories ("", 0))
    as [(st' & E & Hall)|(x & e & E & Hin & Hx)]; rewrite E; cbn [bind].
  - split; [split|split].
    + intros [e He]. discriminate.
    + intros (x & Hin & Hx). rewrite (Hall x Hin) in Hx. discriminate.
    + intros e He. discriminate.
    + intros p. discriminate.
  - split; [split|split].
    + intros _. exists x. split; [exact Hin|]. now rewrite Hx.
    + intros _. eauto.
    + intros e' [= <-]. eauto.
    + intros p. discriminate.
Qed.

Lemma getLatestDirectory_err_iff_witness :
  exists x, In x ["ledgers/net/0-63999"; "bad-dir"]
            /\ dirUpper x
               = Err (Wrapf (NumError "Atoi" "dir" ErrSyntax)
                            "failed getting latest directory bad-dir").
Proof.
  apply (proj1 (proj2 (getLatestDirectory_err_iff
                         ["ledgers/net/0-63999"; "bad-dir"]))).
  reflexivity.
Defined.

Lemma trailingParts_last_segment (base segment : string) :
  free_of "/" segment ->
  trailingParts (base ++ "/" ++ segment) = strings.Split segment "-".
Proof.
  intros Hfree. unfold trailingParts. cbn [append].
  rewrite Split_append, last_app_nonempty by apply Split_nonempty.
  now rewrite (Split_free "/" segment Hfree).
Qed.

Lemma trailingParts_partition_name (base : string) (partitionStart partitionEnd : Z) :
  trailingParts (base ++ "/" ++ Sprintf_d partitionStart ++ "-"
                 ++ Sprintf_d partitionEnd)
  = [Sprintf_d partitionStart; Sprintf_d partitionEnd].
Proof.
  rewrite trailingParts_last_segment.
  - cbn [append]. rewrite Split_append.
    now rewrite !Split_free by now apply Sprintf_d_free.
  - apply free_of_append; [now apply Sprintf_d_free|].
    cbn. split; [discriminate|now apply Sprintf_d_free].
Qed.

(** X8: a directory name that ends in the partition text "{start}-{end}" of the
    key scheme is read by the scan as a partition with that end, whatever
    precedes the last "/". *)
Theorem dirUpper_partition_name (base : string) (partitionStart partitionEnd : Z) :
  0 <= partitionEnd < 2 ^ 63 ->
  dirUpper (base ++ "/" ++ Sprintf_d partitionStart ++ "-"
            ++ Sprintf_d partitionEnd)
  = Ok (Some partitionEnd).
Proof.
  intros He. unfold dirUpper.
  rewrite trailingParts_partition_name.
  now rewrite Atoi_Sprintf_d.
Qed.

Lemma dirUpper_partition_name_witness :
  dirUpper ("ledgers/net" ++ "/" ++ Sprintf_d 64000 ++ "-" ++ Sprintf_d 127999)
  = Ok (Some 127999).
Proof. apply dirUpper_partition_name. lia. Defined.

(** X9: a listed name that ends in "/" is passed over: its trailing segment is
    empty.  The partition prefix of a key, which ends in "/", is such a
    name. *)
Theorem dirUpper_trailing_slash (dir : string) :
  dirUpper (dir ++ "/") = Ok None
  /\ forall st, getLatestDirectory_step st (dir ++ "/") = Ok st.
Proof.
  assert (E : trailingParts (dir ++ "/") = [""]).
  { replace (dir ++ "/") with (dir ++ "/" ++ "") by reflexivity.
    now rewrite trailingParts_last_segment. }
  split.
  - unfold dirUpper. now rewrite E.
  - intros st. apply getLatestDirectory_step_skip. now rewrite E.
Qed.

(** ** What the file scan returns *)

Lemma TrimPrefix_append (prefix s : string) :
  strings.TrimPrefix (prefix ++ s) prefix = s.
Proof.
  unfold strings.TrimPrefix, strings.HasPrefix.
  assert (E : String.prefix prefix (prefix ++ s) = true)
    by (apply prefix_correct, substring_0_append).
  rewrite E, length_append.
  replace (String.length prefix + String.length s - String.length prefix)%nat
    with (String.length s) by lia.
  apply substring_skip_append.
Qed.

(** The text handed to [ParseUint] for a file of the directory. *)
Lemma trimFileName_scheme (directory body : string) :
  trimFileName (directory ++ "/" ++ body ++ fileSuffix) directory = body.
Proof.
  unfold trimFileName.
  replace (directory ++ "/" ++ body ++ fileSuffix)
    with (((directory ++ "/") ++ body) ++ fileSuffix)
    by (now rewrite !append_assoc).
  now rewrite TrimSuffix_append, TrimPrefix_append.
Qed.

Lemma fold_max_shift (vs : list Z) (acc v : Z) :
  fold_right Z.max (Z.max acc v) vs = Z.max v (fold_right Z.max acc vs).
Proof. induction vs as [|w vs IH]; cbn; [lia|rewrite IH; lia]. Qed.

Lemma getLatestFileName_loop_fold (directory : string)
    (fileNames : list string) (vs : list Z) (latest : Z) :
  Forall2 (fun f v => strconv.ParseUint (trimFileName f directory) 32 = Ok v)
          fileNames vs ->
  getLatestFileName_loop fileNames directory latest
  = Ok (fold_right Z.max latest vs).
Proof.
  intros H. revert latest.
  induction H as [|f v fs vs Hf _ IH]; intros latest; cbn; [reflexivity|].
  rewrite (getLatestFileName_step_ok _ _ _ _ Hf). cbn [bind].
  now rewrite IH, fold_max_shift.
Qed.

Lemma scheme_names_parse (directory : string) (sequences : list Z) :
  (forall n, In n sequences -> is_u32 n) ->
  Forall2 (fun f v => strconv.ParseUint (trimFileName f directory) 32 = Ok v)
          (map (fun n => directory ++ "/" ++ Sprintf_d n ++ fileSuffix)
               sequences)
          sequences.
Proof.
  intros Hall.
  induction sequences as [|n ns IH]; cbn [map]; constructor.
  - rewrite trimFileName_scheme. apply ParseUint_Sprintf_d; [lia|].
    specialize (Hall n (or_introl eq_refl)). unfold is_u32 in Hall. lia.
  - apply IH. intros m Hm. apply Hall. now right.
Qed.

(** X11: files named "{directory}/{sequence}" and the suffix, as the key scheme
    names them with one ledger per file, are read back: the scan returns the
    largest of the sequences (0 when there is none). *)
Theorem getLatestFileNameLedgerSequence_scheme
    (directory : string) (sequences : list Z) :
  (forall n, In n sequences -> is_u32 n) ->
  getLatestFileNameLedgerSequence
    (map (fun n => directory ++ "/" ++ Sprintf_d n ++ fileSuffix) sequences)
    directory
  = Ok (fold_right Z.max 0 sequences).
Proof.
  intros Hall. unfold getLatestFileNameLedgerSequence.
  apply getLatestFileName_loop_fold.
  now apply scheme_names_parse.
Qed.

Lemma getLatestFileNameLedgerSequence_scheme_witness :
  getLatestFileNameLedgerSequence
    (map (fun n => "ledgers/net/0-63999" ++ "/" ++ Sprintf_d n ++ fileSuffix)
         [5; 4294967295; 6])
    "ledgers/net/0-63999"
  = Ok (fold_right Z.max 0 [5; 4294967295; 6]).
Proof.
  apply getLatestFileNameLedgerSequence_scheme.
  intros n [<-|[<-|[<-|[]]]]; unfold is_u32; lia.
Defined.

Lemma all_parse_values (fileNames : list string) (directory : string) :
  (forall f, In f fileNames ->
     is_ok (strconv.ParseUint (trimFileName f directory) 32) = true) ->
  exists vs,
    Forall2 (fun f v => strconv.ParseUint (trimFileName f directory) 32 = Ok v)
            fileNames vs.
Proof.
  induction fileNames as [|f fs IH]; intros Hall.
  - exists []. constructor.
  - destruct IH as [vs Hvs]; [intros g Hg; apply Hall; now right|].
    pose proof (Hall f (or_introl eq_refl)) as Hf.
    destruct (strconv.ParseUint (trimFileName f directory) 32) as [v| |] eqn:E;
      try discriminate.
    exists (v :: vs). now constructor.
Qed.

Lemma getLatestFileName_loop_u32 (directory : string)
    (fileNames : list string) (latest r : Z) :
  is_u32 latest ->
  getLatestFileName_loop fileNames directory latest = Ok r ->
  is_u32 r /\ latest <= r
  /\ forall f, In f fileNames ->
       exists v, strconv.ParseUint (trimFileName f directory) 32 = Ok v
                 /\ v <= r.
Proof.
  revert latest. induction fileNames as [|f fs IH]; intros latest Hl; cbn.
  - intros [= <-]. split; [exact Hl|]. split; [lia|intros f []].
  - destruct (ParseUint_cases (trimFileName f directory) 32) as [[v E]|[k E]].
    + rewrite (getLatestFileName_step_ok _ _ _ _ E). cbn [bind].
      pose proof (ParseUint_32_range _ _ E) as Hv.
      intros Hrun. apply IH in Hrun as (Hr & Hle & Hall);
        [|unfold is_u32 in *; lia].
      split; [exact Hr|]. split; [lia|].
      intros g [<-|Hg]; [exists v; split; [exact E|lia]|now apply Hall].
    + unfold getLatestFileName_step. rewrite E. discriminate.
Qed.

(** X12: the file scan returns a sequence exactly when every listed name parses;
    the sequence is a uint32 at or above every parsed one; the scan never
    panics. *)
Theorem getLatestFileNameLedgerSequence_ok_iff
    (fileNames : list string) (directory : string) :
  ((exists r, getLatestFileNameLedgerSequence fileNames directory = Ok r)
   <-> forall f, In f fileNames ->
         is_ok (strconv.ParseUint (trimFileName f directory) 32) = true)
  /\ (forall r, getLatestFileNameLedgerSequence fileNames directory = Ok r ->
        is_u32 r)
  /\ (forall p, getLatestFileNameLedgerSequence fileNames directory <> Panic p).
Proof.
  unfold getLatestFileNameLedgerSequence.
  assert (H0 : is_u32 0) by (unfold is_u32; lia).
  destruct (getLatestFileName_loop fileNames directory 0) as [r|e|p] eqn:E.
  - destruct (getLatestFileName_loop_u32 _ _ _ _ H0 E) as (Hr & _ & Hall).
    split; [split|split].
    + intros _ f Hf. destruct (Hall f Hf) as (v & Ev & _). now rewrite Ev.
    + eauto.
    + now intros r' [= <-].
    + discriminate.
  - split; [split|split]; try discriminate.
    + intros [r Hr]. discriminate.
    + intros Hall. exfalso.
      destruct (all_parse_values fileNames directory Hall) as [vs Hvs].
      rewrite (getLatestFileName_loop_fold _ _ _ _ Hvs) in E. discriminate.
  - exfalso.
    assert (Hnp : forall l acc, getLatestFileName_loop l directory acc <> Panic p).
    { induction l as [|f fs IH]; intros acc; cbn; [discriminate|].
      destruct (ParseUint_cases (trimFileName f directory) 32) as [[v Ev]|[k Ev]].
      - rewrite (getLatestFileName_step_ok _ _ _ _ Ev). cbn [bind]. apply IH.
      - unfold getLatestFileName_step. rewrite Ev. discriminate. }
    now apply (Hnp fileNames 0).
Qed.

Lemma getLatestFileNameLedgerSequence_ok_iff_witness :
  exists r,
    getLatestFileNameLedgerSequence ["d/1.xdr.gz"; "d/7.xdr.gz"] "d" = Ok r.
Proof.
  apply (proj1 (getLatestFileNameLedgerSequence_ok_iff _ "d")).
  intros f [<-|[<-|[]]]; reflexivity.
Defined.

(** X13: when every listed name parses, the order of the listing does not
    matter. *)
Theorem getLatestFileNameLedgerSequence_permutation
    (fileNames fileNames' : list string) (directory : string) :
  Permutation fileNames fileNames' ->
  (forall f, In f fileNames ->
     is_ok (strconv.ParseUint (trimFileName f directory) 32) = true) ->
  getLatestFileNameLedgerSequence fileNames directory
  = getLatestFileNameLedgerSequence fileNames' directory.
Proof.
  intros Hperm. unfold getLatestFileNameLedgerSequence. generalize 0.
  induction Hperm as [|f l l' Hperm IH|f g l|l l' l'' H1 IH1 H2 IH2];
    intros acc Hall.
  - reflexivity.
  - cbn. pose proof (Hall f (or_introl eq_refl)) as Hf.
    destruct (strconv.ParseUint (trimFileName f directory) 32) as [v| |] eqn:E;
      try discriminate.
    rewrite (getLatestFileName_step_ok _ _ _ _ E). cbn [bind].
    apply IH. intros h Hh. apply Hall. now right.
  - cbn.
    pose proof (Hall f (or_intror (or_introl eq_refl))) as Hf.
    pose proof (Hall g (or_introl eq_refl)) as Hg.
    destruct (strconv.ParseUint (trimFileName f directory) 32) as [v| |] eqn:Ef;
      try discriminate.
    destruct (strconv.ParseUint (trimFileName g directory) 32) as [w| |] eqn:Eg;
      try discriminate.
    rewrite (getLatestFileName_step_ok _ _ _ _ Ef),
            (getLatestFileName_step_ok _ _ _ _ Eg). cbn [bind].
    rewrite (getLatestFileName_step_ok _ _ _ _ Ef),
            (getLatestFileName_step_ok _ _ _ _ Eg). cbn [bind].
    replace (Z.max (Z.max acc w) v) with (Z.max (Z.max acc v) w) by lia.
    reflexivity.
  - rewrite IH1 by assumption. apply IH2.
    intros f Hf. apply Hall. eapply Permutation_in; [|exact Hf].
    now apply Permutation_sym.
Qed.

Lemma getLatestFileNameLedgerSequence_permutation_witness :
  getLatestFileNameLedgerSequence ["d/1.xdr.gz"; "d/7.xdr.gz"] "d"
  = getLatestFileNameLedgerSequence ["d/7.xdr.gz"; "d/1.xdr.gz"] "d".
Proof.
  apply getLatestFileNameLedgerSequence_permutation.
  - apply perm_swap.
  - intros f [<-|[<-|[]]]; reflexivity.
Defined.

Lemma ParseUint_loop_not_digit (a b : string) (c : ascii) (n maxVal : Z) :
  strconv.digit c = None ->
  exists k, strconv.ParseUint_loop (a ++ String c b) n maxVal = inl k.
Proof.
  intros Hc. revert n. induction a as [|x a IH]; intros n; cbn.
  - rewrite Hc. eauto.
  - destruct (strconv.digit x); [|eauto].
    destruct (_ <=? n); [eauto|].
    destruct (_ || _); [eauto|]. apply IH.
Qed.

(** X14: a file whose name carries a range, "{fileStart}-{fileEnd}", as the key
    scheme writes it when a file holds several ledgers, is not read by the
    file scan: a listing that contains one makes the scan return an error. *)
Theorem getLatestFileNameLedgerSequence_rejects_ranges
    (pre post : list string) (directory : string) (fileStart fileEnd : Z) :
  fileStart <> fileEnd ->
  is_err (getLatestFileNameLedgerSequence
            (pre ++ (directory ++ "/" ++ fileName fileStart fileEnd) :: post)
            directory) = true.
Proof.
  intros Hne.
  set (name := directory ++ "/" ++ fileName fileStart fileEnd).
  assert (Hbad : is_ok (strconv.ParseUint (trimFileName name directory) 32)
                 = false).
  { unfold name. rewrite fileName_assoc, trimFileName_scheme.
    destruct (Z.eqb_spec fileStart fileEnd) as [E|_]; [contradiction|].
    cbn [negb append]. unfold strconv.ParseUint, strconv.ParseUint_kind.
    destruct (ParseUint_loop_not_digit (Sprintf_d fileStart)
                (Sprintf_d fileEnd) "-" 0 (2 ^ 32 - 1) eq_refl) as [k Hk].
    rewrite Hk.
    destruct (Sprintf_d fileStart ++ String "-" (Sprintf_d fileEnd));
      reflexivity. }
  unfold getLatestFileNameLedgerSequence.
  destruct (getLatestFileName_loop_fails directory (pre ++ name :: post) 0)
    as (f & k & _ & _ & E).
  - exists name. split; [apply in_or_app; right; now left|exact Hbad].
  - now rewrite E.
Qed.

Lemma getLatestFileNameLedgerSequence_rejects_ranges_witness :
  is_err (getLatestFileNameLedgerSequence
            (["0-127/0-3.xdr.gz"]
             ++ ("0-127" ++ "/" ++ fileName 8 11) :: ["0-127/4-7.xdr.gz"])
            "0-127") = true.
Proof.
  apply getLatestFileNameLedgerSequence_rejects_ranges. lia.
Defined.


(** ** The whole lookup *)

(** X15: a bucket laid out by the key scheme is read back.  When the listed
    directories are "{base}/{start}-{end}" for a list of partitions, one of
    them has a positive end that is larger than the ends before it and at
    least the ends after it, and its files are "{directory}/{sequence}" with
    the suffix for a list of uint32 sequences, the lookup returns the
    largest of these sequences. *)
Theorem GetLatestLedgerSequence_scheme
    (Reader : Type) (csb : CloudStorageBackend Reader) (base : string)
    (before after : list (Z * Z)) (partitionStart partitionEnd : Z)
    (sequences : list Z) :
  let dirName := fun p : Z * Z =>
    base ++ "/" ++ Sprintf_d (fst p) ++ "-" ++ Sprintf_d (snd p) in
  let latest := dirName (partitionStart, partitionEnd) in
  ListDirectoryNames (lcmDataStore csb)
  = Ok (map dirName (before ++ (partitionStart, partitionEnd) :: after)) ->
  0 < partitionEnd < 2 ^ 63 ->
  (forall p, In p before -> 0 <= snd p < partitionEnd) ->
  (forall p, In p after -> 0 <= snd p <= partitionEnd) ->
  ListFileNames (lcmDataStore csb) latest
  = Ok (map (fun n => latest ++ "/" ++ Sprintf_d n ++ fileSuffix) sequences) ->
  (forall n, In n sequences -> is_u32 n) ->
  GetLatestLedgerSequence csb = Ok (fold_right Z.max 0 sequences).
Proof.
  intros dirName latest Hdirs He Hbefore Hafter Hfiles Hseq.
  assert (Hup : forall p, 0 <= snd p < 2 ^ 63 ->
                  dirUpper (dirName p) = Ok (Some (snd p))).
  { intros p Hp. unfold dirName, dirUpper.
    now rewrite trailingParts_partition_name, Atoi_Sprintf_d. }
  assert (Hlatest : getLatestDirectory
                      (map dirName (before ++ (partitionStart, partitionEnd) :: after))
                    = Ok latest).
  { rewrite map_app. cbn [map]. fold latest. unfold getLatestDirectory.
    rewrite getLatestDirectory_loop_app.
    destruct (getLatestDirectory_loop_under (map dirName before) ("", 0)
                partitionEnd) as (st & E & Hst); [cbn; lia| |].
    { intros x Hx. apply in_map_iff in Hx as (p & <- & Hp). right.
      exists (snd p). specialize (Hbefore p Hp).
      split; [apply Hup|]; lia. }
    rewrite E. cbn [bind getLatestDirectory_loop].
    rewrite getLatestDirectory_step_dirUpper.
    unfold latest. rewrite (Hup (partitionStart, partitionEnd)) by (cbn; lia).
    cbn [bind snd]. destruct (Z.ltb_spec (snd st) partitionEnd); [|lia].
    cbn [bind]. rewrite getLatestDirectory_loop_below; [reflexivity|].
    intros x Hx. apply in_map_iff in Hx as (p & <- & Hp). right.
    exists (snd p). specialize (Hafter p Hp).
    split; [apply Hup|cbn]; lia. }
  unfold GetLatestLedgerSequence.
  rewrite Hdirs. cbn [wrapErr bind]. rewrite Hlatest. cbn [wrapErr bind].
  rewrite Hfiles. cbn [wrapErr bind].
  unfold getLatestFileNameLedgerSequence.
  rewrite (getLatestFileName_loop_fold _ _ sequences);
    [reflexivity|now apply scheme_names_parse].
Qed.

Lemma GetLatestLedgerSequence_scheme_witness :
  GetLatestLedgerSequence Fixture.layoutBackend
  = Ok (fold_right Z.max 0 [64000; 64002; 64001]).
Proof.
  apply (GetLatestLedgerSequence_scheme _ Fixture.layoutBackend "ledgers/net"
           [(0, 63999)] [] 64000 127999 [64000; 64002; 64001]).
  - reflexivity.
  - lia.
  - intros p [<-|[]]. cbn. lia.
  - intros p [].
  - reflexivity.
  - intros n [<-|[<-|[<-|[]]]]; unfold is_u32; lia.
Defined.

(** ** What a range probe tells *)

Section PrepareRangeOutcome.

Context {LedgerCloseMeta Reader GzipReader : Type}.
Variable gzip_NewReader : Reader -> outcome GzipReader.
Variable io_ReadAll : GzipReader -> outcome (list Byte.byte).
Variable UnmarshalBinary :
  list Byte.byte -> outcome (LedgerCloseMetaBatch LedgerCloseMeta).
Variable csb : CloudStorageBackend Reader.

(** X18: [PrepareRange] returns nil only if [GetLedger] returned a ledger for
    [from] and, in a bounded range, for [to]; a panic of [GetLedger] on a
    probed boundary is the outcome of [PrepareRange]; the calls recorded
    before are kept and one or two are added. *)
Theorem PrepareRange_ok_iff (r : Range) (log : list Z) :
  let get := GetLedger gzip_NewReader io_ReadAll UnmarshalBinary csb in
  let prepare := PrepareRange gzip_NewReader io_ReadAll UnmarshalBinary csb in
  (fst (prepare r log) = Ok tt
   <-> (exists record, get (from r) = Ok record)
       /\ (bounded r = true -> exists record, get (to r) = Ok record))
  /\ (forall p, fst (prepare r log) = Panic p
      <-> get (from r) = Panic p
          \/ (is_ok (get (from r)) = true /\ bounded r = true
              /\ get (to r) = Panic p))
  /\ (exists calls, snd (prepare r log) = (log ++ calls)%list
                    /\ (1 <= List.length calls <= 2)%nat).
Proof.
  intros get prepare.
  unfold prepare, PrepareRange, bindP, wrapErrP, call_GetLedger, retP.
  fold get.
  destruct (get (from r)) as [m|e|p] eqn:Efrom; cbn [wrapErr is_ok].
  - destruct (bounded r) eqn:Eb.
    + destruct (get (to r)) as [m'|e'|p'] eqn:Eto; cbn [wrapErr fst snd];
        rewrite <- app_assoc; cbn [app].
      * split; [|split].
        -- split; [intros _; split; eauto|reflexivity].
        -- intros q. split; [discriminate|].
           intros [H|(_ & _ & H)]; discriminate.
        -- exists [from r; to r]. split; [reflexivity|cbn; lia].
      * split; [|split].
        -- split; [discriminate|].
           intros (_ & H). destruct (H eq_refl) as [x Hx]. discriminate.
        -- intros q. split; [discriminate|].
           intros [H|(_ & _ & H)]; discriminate.
        -- exists [from r; to r]. split; [reflexivity|cbn; lia].
      * split; [|split].
        -- split; [discriminate|].
           intros (_ & H). destruct (H eq_refl) as [x Hx]. discriminate.
        -- intros q. split.
           ++ intros [= <-]. right. auto.
           ++ intros [H|(_ & _ & H)]; [discriminate|congruence].
        -- exists [from r; to r]. split; [reflexivity|cbn; lia].
    + cbn [fst snd]. split; [|split].
      * split; [intros _; split; [eauto|discriminate]|reflexivity].
      * intros q. split; [discriminate|].
        intros [H|(_ & H & _)]; discriminate.
      * exists [from r]. split; [reflexivity|cbn; lia].
  - cbn [fst snd]. split; [|split].
    + split; [discriminate|]. intros ([x Hx] & _). discriminate.
    + intros q. split; [discriminate|].
      intros [H|(H & _)]; discriminate.
    + exists [from r]. split; [reflexivity|cbn; lia].
  - cbn [fst snd]. split; [|split].
    + split; [discriminate|]. intros ([x Hx] & _). discriminate.
    + intros q. split.
      * intros [= <-]. now left.
      * intros [H|(H & _)]; [congruence|discriminate].
    + exists [from r]. split; [reflexivity|cbn; lia].
Qed.

End PrepareRangeOutcome.

Lemma PrepareRange_ok_iff_witness :
  fst (Fixture.prepareRange Fixture.smallBackend
         {| from := 5; to := 6; bounded := true |} [])
  = Panic (IndexOutOfRange 1 1).
Proof.
  apply (proj1 (proj2 (PrepareRange_ok_iff Fixture.gzip_NewReader
                         Fixture.io_ReadAll Fixture.UnmarshalBinary
                         Fixture.smallBackend
                         {| from := 5; to := 6; bounded := true |} []))).
  right. repeat split.
Defined.

Lemma getLatestFileName_loop_err (directory : string)
    (fileNames : list string) (latest : Z) (e : error) :
  getLatestFileName_loop fileNames directory latest = Err e ->
  exists f k,
    In f fileNames
    /\ e = Wrapf (NumError "ParseUint" (trimFileName f directory) k)
                 ("failed converting filename to uint32 " ++ f).
Proof.
  revert latest. induction fileNames as [|f fs IH]; intros latest; cbn.
  - discriminate.
  - destruct (ParseUint_cases (trimFileName f directory) 32) as [[v E]|[k E]].
    + rewrite (getLatestFileName_step_ok _ _ _ _ E). cbn [bind].
      intros H. apply IH in H as (g & k & Hg & ->).
      exists g, k. split; [now right|reflexivity].
    + unfold getLatestFileName_step. rewrite E. cbn [wrapErr bind].
      intros [= <-]. exists f, k. split; [now left|reflexivity].
Qed.

(** ** What the lookup returns *)

(** X16: a sequence returned by the lookup is a uint32 at or above the sequence
    of every file listed in the directory the scan selected, and that
    directory is a listed one or the empty name. *)
Theorem GetLatestLedgerSequence_ok_inv
    (Reader : Type) (csb : CloudStorageBackend Reader) (r : Z) :
  GetLatestLedgerSequence csb = Ok r ->
  exists directories latestDirectory fileNames,
    ListDirectoryNames (lcmDataStore csb) = Ok directories
    /\ getLatestDirectory directories = Ok latestDirectory
    /\ (latestDirectory = "" \/ In latestDirectory directories)
    /\ ListFileNames (lcmDataStore csb) latestDirectory = Ok fileNames
    /\ is_u32 r
    /\ forall f, In f fileNames ->
         exists v,
           strconv.ParseUint (trimFileName f latestDirectory) 32 = Ok v
           /\ v <= r.
Proof.
  unfold GetLatestLedgerSequence.
  destruct (ListDirectoryNames (lcmDataStore csb)) as [dirs| |] eqn:E1;
    cbn [wrapErr bind]; try discriminate.
  destruct (getLatestDirectory dirs) as [d| |] eqn:E2;
    cbn [wrapErr bind]; try discriminate.
  destruct (ListFileNames (lcmDataStore csb) d) as [names| |] eqn:E3;
    cbn [wrapErr bind]; try discriminate.
  unfold getLatestFileNameLedgerSequence.
  destruct (getLatestFileName_loop names d 0) as [r'| |] eqn:E4;
    cbn [wrapErr]; try discriminate.
  intros [= <-].
  destruct (getLatestFileName_loop_u32 d names 0 r' ltac:(unfold is_u32; lia) E4)
    as (Hr & _ & Hall).
  assert (Hmem : d = "" \/ In d dirs).
  { unfold getLatestDirectory in E2.
    destruct (getLatestDirectory_loop dirs ("", 0)) as [st| |] eqn:E5;
      cbn [bind] in E2; try discriminate.
    injection E2 as <-.
    pose proof (getLatestDirectory_loop_inv dirs [] ("", 0) st
                  (or_introl eq_refl) ltac:(cbn; lia)
                  ltac:(intros x v []) E5) as (Hst & _).
    destruct Hst as [->|(Hin & _)]; [now left|now right]. }
  exists dirs, d, names. unfold is_u32 in *.
  repeat split; try assumption; try reflexivity; lia.
Qed.

Lemma GetLatestLedgerSequence_ok_inv_witness :
  exists directories latestDirectory fileNames,
    ListDirectoryNames (lcmDataStore Fixture.layoutBackend) = Ok directories
    /\ getLatestDirectory directories = Ok latestDirectory
    /\ (latestDirectory = "" \/ In latestDirectory directories)
    /\ ListFileNames (lcmDataStore Fixture.layoutBackend) latestDirectory
       = Ok fileNames
    /\ is_u32 64002
    /\ forall f, In f fileNames ->
         exists v,
           strconv.ParseUint (trimFileName f latestDirectory) 32 = Ok v
           /\ v <= 64002.
Proof.
  apply (GetLatestLedgerSequence_ok_inv _ Fixture.layoutBackend 64002).
  reflexivity.
Defined.

(** X17: every error of the lookup is the wrapped error of one of its four
    stages: the directory listing, a directory name that [Atoi] rejects,
    the file listing of the selected directory, or a file name that
    [ParseUint] rejects. *)
Theorem GetLatestLedgerSequence_err_inv
    (Reader : Type) (csb : CloudStorageBackend Reader) (e : error) :
  GetLatestLedgerSequence csb = Err e ->
  (exists cause,
     ListDirectoryNames (lcmDataStore csb) = Err cause
     /\ e = Wrapf cause "failed getting list of directory names")
  \/ (exists directories x cause,
        ListDirectoryNames (lcmDataStore csb) = Ok directories
        /\ In x directories /\ dirUpper x = Err cause
        /\ e = Wrapf cause "failed getting latest directory")
  \/ (exists directories d cause,
        ListDirectoryNames (lcmDataStore csb) = Ok directories
        /\ getLatestDirectory directories = Ok d
        /\ ListFileNames (lcmDataStore csb) d = Err cause
        /\ e = Wrapf cause ("failed getting filenames in dir " ++ d))
  \/ (exists directories d fileNames f k,
        ListDirectoryNames (lcmDataStore csb) = Ok directories
        /\ getLatestDirectory directories = Ok d
        /\ ListFileNames (lcmDataStore csb) d = Ok fileNames
        /\ In f fileNames
        /\ e = Wrapf (Wrapf (NumError "ParseUint" (trimFileName f d) k)
                            ("failed converting filename to uint32 " ++ f))
                     "failed converting filename to ledger sequence").
Proof.
  unfold GetLatestLedgerSequence.
  destruct (ListDirectoryNames (lcmDataStore csb)) as [dirs|c|] eqn:E1;
    cbn [wrapErr bind]; try discriminate.
  2: { intros [= <-]. left. eauto. }
  destruct (getLatestDirectory dirs) as [d|c|] eqn:E2;
    cbn [wrapErr bind]; try discriminate.
  2: { intros [= <-]. right; left.
       unfold getLatestDirectory in E2.
       destruct (getLatestDirectory_loop_outcome dirs ("", 0))
         as [(st' & E & _)|(x & c' & E & Hin & Hx)];
         rewrite E in E2; cbn [bind] in E2; [discriminate|].
       injection E2 as <-. exists dirs, x, c'. auto. }
  destruct (ListFileNames (lcmDataStore csb) d) as [names|c|] eqn:E3;
    cbn [wrapErr bind]; try discriminate.
  2: { intros [= <-]. right; right; left. exists dirs, d, c. auto. }
  unfold getLatestFileNameLedgerSequence.
  destruct (getLatestFileName_loop names d 0) as [r'|c|] eqn:E4;
    cbn [wrapErr]; try discriminate.
  intros [= <-]. right; right; right.
  apply getLatestFileName_loop_err in E4 as (f & k & Hf & ->).
  exists dirs, d, names, f, k. auto.
Qed.

Lemma GetLatestLedgerSequence_err_inv_witness :
  exists directories x cause,
    ListDirectoryNames (lcmDataStore Fixture.mixedBackend) = Ok directories
    /\ In x directories /\ dirUpper x = Err cause
    /\ Wrapf (Wrapf (NumError "Atoi" "dir" ErrSyntax)
                    "failed getting latest directory bad-dir")
             "failed getting latest directory"
       = Wrapf cause "failed getting latest directory".
Proof.
  destruct (GetLatestLedgerSequence_err_inv _ Fixture.mixedBackend _ eq_refl)
    as [(c & H & _)|[H|[(ds & d & c & H1 & H2 & _)|(ds & d & fs & f & k & H1 & H2 & _)]]].
  - cbn in H. discriminate H.
  - exact H.
  - cbn in H1. injection H1 as <-. vm_compute in H2. discriminate H2.
  - cbn in H1. injection H1 as <-. vm_compute in H2. discriminate H2.
Defined.

(** ** Ends are never negative *)

Lemma Split_parts_free (sep : ascii) (s p : string) :
  In p (strings.Split s sep) -> free_of sep p.
Proof.
  revert p. induction s as [|c s IH]; intros p; cbn.
  - intros [<-|[]]. exact I.
  - destruct (Ascii.eqb_spec c sep) as [E|E].
    + intros [<-|Hp]; [exact I|now apply IH].
    + destruct (strings.Split s sep) as [|p0 ps]; cbn.
      * intros [<-|[]]. cbn. auto.
      * intros [<-|Hp].
        -- cbn. split; [exact E|]. apply IH. now left.
        -- apply IH. now right.
Qed.

Lemma digit_range (c : ascii) (d : Z) :
  strconv.digit c = Some d -> 0 <= d <= 9.
Proof.
  unfold strconv.digit.
  destruct (Z.leb_spec 48 (Z.of_N (N_of_ascii c)));
    destruct (Z.leb_spec (Z.of_N (N_of_ascii c)) 57); cbn [andb];
    try discriminate.
  intros [= <-]. lia.
Qed.

Lemma Atoi_fast_loop_nonneg (s : string) (acc n : Z) :
  0 <= acc -> strconv.Atoi_fast_loop s acc = Some n -> 0 <= n.
Proof.
  revert acc. induction s as [|c s IH]; intros acc Hacc; cbn.
  - now intros [= <-].
  - destruct (strconv.digit c) as [d|] eqn:Ed; [|discriminate].
    apply digit_range in Ed. apply IH. lia.
Qed.

Lemma strip_sign_no_minus (s : string) :
  free_of "-" s -> fst (strconv.strip_sign s) = false.
Proof.
  destruct s as [|c s]; [reflexivity|]. intros [Hm _].
  destruct c as [[] [] [] [] [] [] [] []]; try reflexivity.
  now contradiction Hm.
Qed.

Lemma Atoi_nonneg (s : string) (v : Z) :
  free_of "-" s -> strconv.Atoi s = Ok v -> 0 <= v.
Proof.
  intros Hfree. pose proof (strip_sign_no_minus s Hfree) as Hsign.
  unfold strconv.Atoi. destruct (_ && _).
  - destruct (strconv.strip_sign s) as [neg s']. cbn in Hsign. subst neg.
    destruct s' as [|c s']; [discriminate|].
    destruct (strconv.Atoi_fast_loop (String c s') 0) as [n|] eqn:E;
      [|discriminate].
    intros [= <-]. now apply Atoi_fast_loop_nonneg in E.
  - unfold strconv.ParseInt_kind.
    destruct s as [|c0 s0]; [discriminate|].
    destruct (strconv.strip_sign (String c0 s0)) as [neg s']. cbn in Hsign.
    subst neg. unfold strconv.ParseUint_kind.
    destruct s' as [|c s']; [discriminate|].
    destruct (strconv.ParseUint_loop (String c s') 0 (2 ^ 64 - 1))
      as [[]|un] eqn:E; try discriminate.
    apply ParseUint_loop_range in E; [|lia].
    cbn [negb andb]. destruct (2 ^ 63 <=? un); [discriminate|].
    intros [= <-]. lia.
Qed.

(** X10: the end the scan reads off a directory name is never negative: the text
    it hands to [Atoi] comes from a split on "-" and holds no "-".  A
    running maximum that starts at 0 is therefore below every end but 0. *)
Theorem dirUpper_nonneg (dir : string) (upper : Z) :
  dirUpper dir = Ok (Some upper) -> 0 <= upper.
Proof.
  unfold dirUpper.
  destruct (trailingParts dir) as [|p0 [|p1 [|p2 ps]]] eqn:E; try discriminate.
  assert (Hfree : free_of "-" p1).
  { apply (Split_parts_free "-" (last (strings.Split dir "/") "")).
    unfold trailingParts in E. rewrite E. right. now left. }
  destruct (strconv.Atoi p1) as [v| |] eqn:EA; cbn [wrapErr bind];
    try discriminate.
  intros [= <-]. now apply (Atoi_nonneg p1).
Qed.

Lemma dirUpper_nonneg_witness : 0 <= 5.
Proof. apply (dirUpper_nonneg "ledgers/net/0-+5" 5). reflexivity. Defined.
